(** * A rope for text editors: the TypeScript class [Rope] of [src/index.ts]

    The rope is a binary tree of string fragments.  The source keeps the tree
    in mutable [RopeNode] objects.  Every node has exactly one owner: each
    private method consumes the nodes it is given and hands back the root of
    the tree it built out of them, and every public method that restructures
    the tree overwrites [this.root] with that result as its last step.  The
    embedding therefore passes nodes by value; an in-place write such as
    [left.value += right.value] becomes a record update on the value that is
    returned.

    Conventions.
    - A JavaScript string is a list of code units ([list ascii]); lengths and
      indices are integers ([Z]).  Non-integral numbers and [NaN] are outside
      the model.
    - [throw new Error(msg)] is a [Throw] carrying the message as a constructor
      of [exn]; dereferencing [null] (behind a TypeScript [!]) is
      [Throw TypeError].
    - The [parent] back-pointer is written by the source but never read for a
      decision, so the embedding leaves it out. *)

From Stdlib Require Import ZArith List Ascii String Lia Bool.
Import ListNotations.
Local Open Scope Z_scope.

(** ** Exceptions *)

Inductive exn : Type :=
| IndexOutOfBounds   (* Error("Index out of bounds") *)
| InvalidRange       (* Error("Invalid range") *)
| InvalidStructure   (* Error("Invalid rope structure") *)
| TypeError.         (* property access on null *)

Inductive result (A : Type) : Type :=
| Ok (a : A)
| Throw (e : exn).
Arguments Ok {A} a.
Arguments Throw {A} e.

Definition bind {A B : Type} (m : result A) (k : A -> result B) : result B :=
  match m with
  | Ok a => k a
  | Throw e => Throw e
  end.

Notation "x <- m ;; k" := (bind m (fun x => k))
  (at level 61, m at next level, right associativity).
Notation "' pat <- m ;; k" := (bind m (fun x => match x with pat => k end))
  (at level 61, pat pattern, m at next level, right associativity).

(** ** The string primitives the class uses *)

Module JS.

Definition string : Type := list ascii.

(** [s.length] *)
Definition len (s : string) : Z := Z.of_nat (List.length s).

Definition clamp (s : string) (i : Z) : Z := Z.min (Z.max i 0) (len s).

(** [s.substring(a, b)]: both bounds are clamped to [0, s.length] and
    swapped when they come in the wrong order. *)
Definition substring (s : string) (a b : Z) : string :=
  let a' := clamp s a in
  let b' := clamp s b in
  let lo := Z.min a' b' in
  let hi := Z.max a' b' in
  firstn (Z.to_nat (hi - lo)) (skipn (Z.to_nat lo) s).

(** [s.substring(a)] *)
Definition substring_from (s : string) (a : Z) : string :=
  substring s a (len s).

(** [s.slice(a, b)]: a negative bound counts from the end; an empty string
    when the bounds cross. *)
Definition slice_bound (s : string) (i : Z) : Z :=
  if i <? 0 then Z.max (len s + i) 0 else Z.min i (len s).

Definition slice (s : string) (a b : Z) : string :=
  let from := slice_bound s a in
  let to := slice_bound s b in
  firstn (Z.to_nat (Z.max (to - from) 0)) (skipn (Z.to_nat from) s).

(** [s[i]]: a string of one code unit, or [undefined] ([None]). *)
Definition index (s : string) (i : Z) : option string :=
  if i <? 0 then None
  else match nth_error s (Z.to_nat i) with
       | Some c => Some [c]
       | None => None
       end.

(** Truthiness of a string in a condition: [if (s)]. *)
Definition truthy (s : string) : bool :=
  match s with
  | [] => false
  | _ :: _ => true
  end.

End JS.

(** ** class RopeNode *)

Inductive RopeNodeType : Type := LEAF | INTERNAL.

Definition isLEAF (t : RopeNodeType) : bool :=
  match t with LEAF => true | INTERNAL => false end.

#[warnings="-register-all"] Inductive RopeNode : Type := mkRopeNode {
  left : option RopeNode;
  right : option RopeNode;
  weight : Z;
  value : JS.string;
  type : RopeNodeType;
  height : Z
}.

(** [new RopeNode(value)] *)
Definition new_RopeNode (v : JS.string) : RopeNode :=
  {| left := None; right := None; weight := JS.len v; value := v;
     type := LEAF; height := 1 |}.

(** Field assignments [n.f = x]. *)
Definition set_left (n : RopeNode) (x : option RopeNode) : RopeNode :=
  mkRopeNode x (right n) (weight n) (value n) (type n) (height n).
Definition set_right (n : RopeNode) (x : option RopeNode) : RopeNode :=
  mkRopeNode (left n) x (weight n) (value n) (type n) (height n).
Definition set_weight (n : RopeNode) (x : Z) : RopeNode :=
  mkRopeNode (left n) (right n) x (value n) (type n) (height n).
Definition set_value (n : RopeNode) (x : JS.string) : RopeNode :=
  mkRopeNode (left n) (right n) (weight n) x (type n) (height n).
Definition set_type (n : RopeNode) (x : RopeNodeType) : RopeNode :=
  mkRopeNode (left n) (right n) (weight n) (value n) x (height n).
Definition set_height (n : RopeNode) (x : Z) : RopeNode :=
  mkRopeNode (left n) (right n) (weight n) (value n) (type n) x.

(** [n ? n.height : 0] *)
Definition heightOf (n : option RopeNode) : Z :=
  match n with
  | Some m => height m
  | None => 0
  end.

(** ** class Rope *)

Module Rope.

Record t : Type := mk { root : option RopeNode }.

Definition LEAF_LENGTH_THRESHOLD : Z := 1024.

(** *** Private methods on nodes *)

Fixpoint getNodeWeight_node (node : RopeNode) : Z :=
  match type node with
  | LEAF => JS.len (value node)
  | INTERNAL =>
      match left node with Some l => getNodeWeight_node l | None => 0 end
      + match right node with Some r => getNodeWeight_node r | None => 0 end
  end.

Definition getNodeWeight (node : option RopeNode) : Z :=
  match node with
  | None => 0
  | Some n => getNodeWeight_node n
  end.

Definition updateNodeMetadata (node : RopeNode) : RopeNode :=
  match type node with
  | LEAF => set_height (set_weight node (JS.len (value node))) 1
  | INTERNAL =>
      let leftHeight := heightOf (left node) in
      let rightHeight := heightOf (right node) in
      set_height (set_weight node (getNodeWeight (left node)))
                 (Z.max leftHeight rightHeight + 1)
  end.

Definition getBalanceFactor (node : option RopeNode) : Z :=
  match node with
  | None => 0
  | Some n => heightOf (left n) - heightOf (right n)
  end.

Definition rotateRight (y : RopeNode) : result RopeNode :=
  match left y with
  | None => Throw TypeError
  | Some x =>
      let T2 := right x in
      let y := updateNodeMetadata (set_left y T2) in
      let x := updateNodeMetadata (set_right x (Some y)) in
      Ok x
  end.

Definition rotateLeft (x : RopeNode) : result RopeNode :=
  match right x with
  | None => Throw TypeError
  | Some y =>
      let T2 := left y in
      let x := updateNodeMetadata (set_right x T2) in
      let y := updateNodeMetadata (set_left y (Some x)) in
      Ok y
  end.

(** [rotateLeft(node.left!)] and [rotateRight(node.right!)]: the rotation
    dereferences its argument first. *)
Definition deref (n : option RopeNode) : result RopeNode :=
  match n with
  | Some m => Ok m
  | None => Throw TypeError
  end.

Definition balance (node : RopeNode) : result RopeNode :=
  let node := updateNodeMetadata node in
  let balanceFactor := getBalanceFactor (Some node) in
  if balanceFactor >? 1 then
    if getBalanceFactor (left node) >=? 0 then rotateRight node
    else
      l <- deref (left node) ;;
      l' <- rotateLeft l ;;
      rotateRight (set_left node (Some l'))
  else if balanceFactor <? -1 then
    if getBalanceFactor (right node) <=? 0 then rotateLeft node
    else
      r <- deref (right node) ;;
      r' <- rotateRight r ;;
      rotateLeft (set_right node (Some r'))
  else Ok node.

Definition concat (l r : option RopeNode) : result (option RopeNode) :=
  match l, r with
  | None, _ => Ok r
  | _, None => Ok l
  | Some ln, Some rn =>
      if isLEAF (type ln) && isLEAF (type rn)
         && (JS.len (value ln) + JS.len (value rn) <=? LEAF_LENGTH_THRESHOLD)
      then
        let ln := set_value ln (value ln ++ value rn) in
        let ln := set_weight ln (JS.len (value ln)) in
        Ok (Some ln)
      else
        let node := new_RopeNode [] in
        let node := set_type node INTERNAL in
        let node := set_left node (Some ln) in
        let node := set_right node (Some rn) in
        let node := updateNodeMetadata node in
        n <- balance node ;;
        Ok (Some n)
  end.

Fixpoint split (node : RopeNode) (index : Z)
  : result (option RopeNode * option RopeNode) :=
  match type node with
  | LEAF =>
      if index =? 0 then Ok (None, Some node)
      else if index =? JS.len (value node) then Ok (Some node, None)
      else
        let l := new_RopeNode (JS.substring (value node) 0 index) in
        let r := new_RopeNode (JS.substring_from (value node) index) in
        Ok (Some l, Some r)
  | INTERNAL =>
      if index <? weight node then
        match left node with
        | None => Throw TypeError
        | Some ln =>
            '(l, r) <- split ln index ;;
            rightSubtree <-
              match r with
              | Some _ => concat r (right node)
              | None => Ok (right node)
              end ;;
            Ok (l, rightSubtree)
        end
      else
        match right node with
        | None => Throw TypeError
        | Some rn =>
            '(l, r) <- split rn (index - weight node) ;;
            leftSubtree <-
              match l with
              | Some _ => concat (left node) l
              | None => Ok (left node)
              end ;;
            Ok (leftSubtree, r)
        end
  end.

(** [split(n!, index)] *)
Definition split_at (n : option RopeNode) (index : Z)
  : result (option RopeNode * option RopeNode) :=
  match n with
  | Some m => split m index
  | None => Throw TypeError
  end.

(** [createOptimalTree(str, start, end)].  The recursion halves
    [end - start]; [fuel] bounds its depth.  [createOptimalTree] below starts
    with [end - start] units of fuel, which the recursion never uses up
    ([BuilderFacts.createOptimalTree_unfold]), so the [O] branch is dead. *)
Fixpoint createOptimalTree_fuel (fuel : nat) (str : JS.string) (start end_ : Z)
  : RopeNode :=
  let length := end_ - start in
  if length <=? LEAF_LENGTH_THRESHOLD then
    new_RopeNode (JS.substring str start end_)
  else
    match fuel with
    | O => new_RopeNode (JS.substring str start end_)
    | S fuel' =>
        let mid := (start + end_) / 2 in
        let node := new_RopeNode [] in
        let node := set_type node INTERNAL in
        let node := set_left node (Some (createOptimalTree_fuel fuel' str start mid)) in
        let node := set_right node (Some (createOptimalTree_fuel fuel' str mid end_)) in
        updateNodeMetadata node
    end.

Definition createOptimalTree (str : JS.string) (start end_ : Z) : RopeNode :=
  createOptimalTree_fuel (Z.to_nat (end_ - start)) str start end_.

Fixpoint toString_node (node : RopeNode) : JS.string :=
  match type node with
  | LEAF => value node
  | INTERNAL =>
      match left node with Some l => toString_node l | None => [] end
      ++ match right node with Some r => toString_node r | None => [] end
  end.

(** [toString(node)] with an explicit argument *)
Definition toString_of (node : option RopeNode) : JS.string :=
  match node with
  | None => []
  | Some n => toString_node n
  end.

Fixpoint checkBalance_node (node : RopeNode) : Z :=
  let leftHeight :=
    match left node with Some l => checkBalance_node l | None => 0 end in
  if leftHeight =? -1 then -1
  else
    let rightHeight :=
      match right node with Some r => checkBalance_node r | None => 0 end in
    if rightHeight =? -1 then -1
    else if Z.abs (leftHeight - rightHeight) >? 1 then -1
    else Z.max leftHeight rightHeight + 1.

Definition checkBalance (node : option RopeNode) : Z :=
  match node with
  | None => 0
  | Some n => checkBalance_node n
  end.

(** The [while (node.type === "INTERNAL")] loop of [charAt] together with
    the leaf access that follows it. *)
Fixpoint charAt_walk (node : RopeNode) (currentIndex : Z) : result JS.string :=
  match type node with
  | INTERNAL =>
      if currentIndex <? weight node then
        match left node with
        | None => Throw InvalidStructure
        | Some l => charAt_walk l currentIndex
        end
      else
        match right node with
        | None => Throw InvalidStructure
        | Some r => charAt_walk r (currentIndex - weight node)
        end
  | LEAF =>
      match JS.index (value node) currentIndex with
      | None => Throw IndexOutOfBounds
      | Some char => Ok char
      end
  end.

(** *** Constructor and public methods.

    A method maps the receiver to the receiver after the call and the
    outcome of the call.  The checks at the head of a method throw before
    anything is written, so the receiver comes back as it was.  The private
    methods throw only on a malformed tree ([TypeError]); the source has then
    not assigned [this.root], and the model returns the receiver as it was
    before the call, without tracking nodes that were already rewritten in
    place.  [RopeFacts.reachable_wf] and the lemmas on the methods show that
    this case does not arise on a rope built through the public interface.

    [substring] takes its [end] always explicitly; the source's default is
    [this.length()]. *)

Definition new (initialString : JS.string) : t :=
  if JS.truthy initialString
  then mk (Some (createOptimalTree initialString 0 (JS.len initialString)))
  else mk None.

Definition length (this : t) : Z :=
  match root this with
  | Some _ => getNodeWeight (root this)
  | None => 0
  end.

Definition toString (this : t) : JS.string := toString_of (root this).

Definition isBalanced (this : t) : bool :=
  negb (checkBalance (root this) =? -1).

Definition insert (this : t) (index : Z) (text : JS.string) : t * result unit :=
  if (index <? 0) || (index >? length this) then (this, Throw IndexOutOfBounds)
  else
    match root this with
    | None => (mk (Some (new_RopeNode text)), Ok tt)
    | Some rootNode =>
        let newNode := new_RopeNode text in
        let r :=
          '(l, r) <- split rootNode index ;;
          match l with
          | Some _ =>
              temp <- concat l (Some newNode) ;;
              concat temp r
          | None => concat (Some newNode) r
          end in
        match r with
        | Ok newRoot => (mk newRoot, Ok tt)
        | Throw e => (this, Throw e)
        end
    end.

Definition delete (this : t) (start end_ : Z) : t * result unit :=
  if start =? end_ then (this, Ok tt)
  else if (start <? 0) || (end_ >? length this) || (start >=? end_)
  then (this, Throw InvalidRange)
  else
    let r :=
      '(l, temp) <- split_at (root this) start ;;
      '(_, r) <- split_at temp (end_ - start) ;;
      match l with
      | Some _ => concat l r
      | None => Ok r
      end in
    match r with
    | Ok newRoot => (mk newRoot, Ok tt)
    | Throw e => (this, Throw e)
    end.

Definition charAt (this : t) (index : Z) : t * result JS.string :=
  match root this with
  | None => (this, Throw IndexOutOfBounds)
  | Some rootNode =>
      if (index <? 0) || (index >=? length this)
      then (this, Throw IndexOutOfBounds)
      else (this, charAt_walk rootNode index)
  end.

Definition substring (this : t) (start end_ : Z) : t * result JS.string :=
  if (start <? 0) || (end_ >? length this) || (start >? end_)
  then (this, Throw InvalidRange)
  else if start =? end_ then (this, Ok [])
  else if (start =? 0) && (end_ =? length this) then (this, Ok (toString this))
  else
    let r :=
      '(l, temp) <- split_at (root this) start ;;
      '(middle, r) <- split_at temp (end_ - start) ;;
      let result := match middle with Some _ => toString_of middle | None => [] end in
      firstPart <-
        match l with
        | Some _ => concat l middle
        | None => Ok middle
        end ;;
      newRoot <-
        match r with
        | Some _ => concat firstPart r
        | None => Ok firstPart
        end ;;
      Ok (newRoot, result) in
    match r with
    | Ok (newRoot, result) => (mk newRoot, Ok result)
    | Throw e => (this, Throw e)
    end.

Definition rebalance (this : t) : t * result unit :=
  let str := toString this in
  (mk (Some (createOptimalTree str 0 (JS.len str))), Ok tt).

End Rope.

(** * Specification vocabulary *)

(** ** Induction over nodes

    The children of a node sit under [option], so the induction hypothesis
    is phrased with [onSome]. *)

Definition onSome (P : RopeNode -> Prop) (o : option RopeNode) : Prop :=
  match o with
  | Some n => P n
  | None => True
  end.

Fixpoint RopeNode_induction (P : RopeNode -> Prop)
  (step : forall l r w v t h,
      onSome P l -> onSome P r -> P (mkRopeNode l r w v t h))
  (n : RopeNode) : P n :=
  match n with
  | mkRopeNode l r w v t h =>
      step l r w v t h
        (match l return onSome P l with
         | Some x => RopeNode_induction P step x
         | None => I
         end)
        (match r return onSome P r with
         | Some x => RopeNode_induction P step x
         | None => I
         end)
  end.

(** ** The reference string model *)

Module RefString.

(** The first [i] code units of [s], and [s] without them. *)
Definition take (i : Z) (s : JS.string) : JS.string := firstn (Z.to_nat i) s.
Definition drop (i : Z) (s : JS.string) : JS.string := skipn (Z.to_nat i) s.

(** An edit of the public interface, and the splice of a plain string that
    corresponds to it. *)
Inductive edit : Type :=
| Insert (index : Z) (text : JS.string)
| Delete (start end_ : Z).

Definition splice (ref : JS.string) (e : edit) : JS.string :=
  match e with
  | Insert i text => JS.slice ref 0 i ++ text ++ JS.slice ref i (JS.len ref)
  | Delete s e => JS.slice ref 0 s ++ JS.slice ref e (JS.len ref)
  end.

Definition validEdit (ref : JS.string) (e : edit) : Prop :=
  match e with
  | Insert i _ => 0 <= i <= JS.len ref
  | Delete s e => 0 <= s <= e /\ e <= JS.len ref
  end.

Fixpoint validEdits (ref : JS.string) (es : list edit) : Prop :=
  match es with
  | [] => True
  | e :: es' => validEdit ref e /\ validEdits (splice ref e) es'
  end.

Definition applyEdit (r : Rope.t) (e : edit) : Rope.t * result unit :=
  match e with
  | Insert i text => Rope.insert r i text
  | Delete s e => Rope.delete r s e
  end.

(** Run the edits in order; the first exception aborts the run. *)
Fixpoint runEdits (r : Rope.t) (es : list edit) : result Rope.t :=
  match es with
  | [] => Ok r
  | e :: es' =>
      match applyEdit r e with
      | (r', Ok _) => runEdits r' es'
      | (_, Throw x) => Throw x
      end
  end.

End RefString.

(** ** Invariants of the node tree *)

(** The leaf fragments below a node, left to right. *)
Fixpoint leafValues (n : RopeNode) : list JS.string :=
  match type n with
  | LEAF => [value n]
  | INTERNAL =>
      match left n with Some l => leafValues l | None => [] end
      ++ match right n with Some r => leafValues r | None => [] end
  end.

Definition leafLengthSum (o : option RopeNode) : Z :=
  match o with
  | Some n => fold_right Z.add 0 (map JS.len (leafValues n))
  | None => 0
  end.

(** Every internal node caches the number of code units of its left
    subtree. *)
Fixpoint weightsOk (n : RopeNode) : Prop :=
  (type n = INTERNAL -> weight n = leafLengthSum (left n))
  /\ match left n with Some l => weightsOk l | None => True end
  /\ match right n with Some r => weightsOk r | None => True end.

(** Every internal node has a balance factor of -1, 0 or 1. *)
Fixpoint balanceFactorsOk (n : RopeNode) : bool :=
  match type n with
  | LEAF => true
  | INTERNAL =>
      let bf := Rope.getBalanceFactor (Some n) in
      (-1 <=? bf) && (bf <=? 1)
  end
  && match left n with Some l => balanceFactorsOk l | None => true end
  && match right n with Some r => balanceFactorsOk r | None => true end.

(** Well-formed trees: a leaf has no children, an internal node has both,
    and all cached metadata is up to date. *)
Fixpoint wf (n : RopeNode) : Prop :=
  match type n with
  | LEAF =>
      left n = None /\ right n = None
      /\ weight n = JS.len (value n) /\ height n = 1
  | INTERNAL =>
      match left n, right n with
      | Some l, Some r =>
          wf l /\ wf r
          /\ weight n = Rope.getNodeWeight_node l
          /\ height n = Z.max (height l) (height r) + 1
      | _, _ => False
      end
  end.

(** An internal node over the children [l] and [r], whatever its own cached
    fields hold. *)
Definition shell (n l r : RopeNode) : Prop :=
  type n = INTERNAL /\ left n = Some l /\ right n = Some r.

(** The height that [createOptimalTree] gives a tree over [n] code units,
    with the same fuel. *)
Fixpoint shapeHeight (fuel : nat) (n : Z) : Z :=
  if n <=? Rope.LEAF_LENGTH_THRESHOLD then 1
  else
    match fuel with
    | O => 1
    | S fuel' => Z.max (shapeHeight fuel' (n / 2)) (shapeHeight fuel' (n - n / 2)) + 1
    end.

Definition balanceFactorsOk_of (o : option RopeNode) : bool :=
  match o with
  | Some n => balanceFactorsOk n
  | None => true
  end.

(** The rope holds a well-formed tree, or none. *)
Definition wfRope (r : Rope.t) : Prop := onSome wf (Rope.root r).

(** ** Ropes that a client can hold

    A rope is obtained from the constructor and changed only through the
    public methods, with any arguments, whether the call returns or throws. *)

Inductive reachable : Rope.t -> Prop :=
| reach_new (s : JS.string) : reachable (Rope.new s)
| reach_insert (r : Rope.t) (i : Z) (text : JS.string) :
    reachable r -> reachable (fst (Rope.insert r i text))
| reach_delete (r : Rope.t) (s e : Z) :
    reachable r -> reachable (fst (Rope.delete r s e))
| reach_charAt (r : Rope.t) (i : Z) :
    reachable r -> reachable (fst (Rope.charAt r i))
| reach_substring (r : Rope.t) (s e : Z) :
    reachable r -> reachable (fst (Rope.substring r s e))
| reach_rebalance (r : Rope.t) :
    reachable r -> reachable (fst (Rope.rebalance r)).

(** ** Further invariants *)

(** Every node caches one more than the larger cached height of its
    children, an absent child counting as 0. *)
Fixpoint heightsOk (n : RopeNode) : Prop :=
  height n = Z.max (heightOf (left n)) (heightOf (right n)) + 1
  /\ match left n with Some l => heightsOk l | None => True end
  /\ match right n with Some r => heightsOk r | None => True end.

(** A leaf has no children and an internal node has both. *)
Fixpoint childrenOk (n : RopeNode) : Prop :=
  match type n with
  | LEAF => left n = None /\ right n = None
  | INTERNAL =>
      match left n, right n with
      | Some l, Some r => childrenOk l /\ childrenOk r
      | _, _ => False
      end
  end.

(** The height of a tree measured on its shape, without the caches. *)
Fixpoint trueHeight (n : RopeNode) : Z :=
  Z.max (match left n with Some l => trueHeight l | None => 0 end)
        (match right n with Some r => trueHeight r | None => 0 end) + 1.

Definition trueHeightOf (o : option RopeNode) : Z :=
  match o with
  | Some n => trueHeight n
  | None => 0
  end.

(** At every node the measured heights of the two children differ by at most
    one. *)
Fixpoint heightBalanced (n : RopeNode) : Prop :=
  Z.abs (trueHeightOf (left n) - trueHeightOf (right n)) <= 1
  /\ match left n with Some l => heightBalanced l | None => True end
  /\ match right n with Some r => heightBalanced r | None => True end.

(** The internal node with value [v] over [l] and [r] whose caches are up to
    date: what [updateNodeMetadata] leaves. *)
Definition internalNode (v : JS.string) (l r : RopeNode) : RopeNode :=
  mkRopeNode (Some l) (Some r) (Rope.getNodeWeight_node l) v INTERNAL
    (Z.max (height l) (height r) + 1).

(** ** Sample trees *)

Module SampleTrees.

(** An internal node over two children, with its caches filled in as
    [concat] does before it balances. *)
Definition node (l r : RopeNode) : RopeNode :=
  Rope.updateNodeMetadata
    (set_right (set_left (set_type (new_RopeNode []) INTERNAL) (Some l)) (Some r)).

Definition leaf (s : String.string) : RopeNode :=
  new_RopeNode (list_ascii_of_string s).

(** ((a b) c), leaning left. *)
Definition leftLeaning : RopeNode := node (node (leaf "a") (leaf "b")) (leaf "c").


(** (((a b) c) d) without its top node: the operands of a [concat] whose
    heights differ by two. *)
Definition tall : RopeNode := node (node (leaf "a") (leaf "b")) (leaf "c").
Definition short : RopeNode := leaf "d".

End SampleTrees.

(** ** Sample ropes *)

Module Samples.

Definition text (s : String.string) : JS.string := list_ascii_of_string s.

(** [new Rope("Hello, world!")], the rope of [test/rope.ts]. *)
Definition hello : Rope.t := Rope.new (text "Hello, world!").

(** Eight full leaves: [new Rope("a".repeat(8192))]. *)
Definition eightLeaves : Rope.t :=
  Rope.new (repeat "a"%char (Z.to_nat 8192)).

(** The rope after [insert(8192, "x")] on [eightLeaves], with the outcome
    of the call. *)
Definition eightLeavesInsert : Rope.t * result unit :=
  Rope.insert eightLeaves 8192 (text "x").

(** The empty rope, [new Rope()]. *)
Definition empty : Rope.t := Rope.new [].

(** The edits of [test/rope.ts]. *)
Definition helloEdits : list RefString.edit :=
  [RefString.Insert 5 (text " beautiful"); RefString.Delete 5 11].

End Samples.

(** * Verification *)

(** ** Facts about strings *)

Module JSFacts.
Import JS.
Import RefString.

Lemma len_nonneg (s : string) : 0 <= len s.
Proof. unfold len; lia. Qed.

Lemma len_nil : len [] = 0.
Proof. reflexivity. Qed.

Lemma len_app (a b : string) : len (a ++ b) = len a + len b.
Proof. unfold len; rewrite length_app; lia. Qed.

Lemma len_take (i : Z) (s : string) :
  0 <= i <= len s -> len (take i s) = i.
Proof. unfold len, take; intros H; rewrite length_firstn; lia. Qed.

Lemma len_drop (i : Z) (s : string) :
  0 <= i <= len s -> len (drop i s) = len s - i.
Proof. unfold len, drop; intros H; rewrite length_skipn; lia. Qed.

Lemma take_drop (i : Z) (s : string) : take i s ++ drop i s = s.
Proof. apply firstn_skipn. Qed.

Lemma take_0 (s : string) : take 0 s = [].
Proof. reflexivity. Qed.

Lemma drop_0 (s : string) : drop 0 s = s.
Proof. reflexivity. Qed.

Lemma take_all (i : Z) (s : string) : len s <= i -> take i s = s.
Proof. unfold len, take; intros H; apply firstn_all2; lia. Qed.

Lemma drop_all (i : Z) (s : string) : len s <= i -> drop i s = [].
Proof. unfold len, drop; intros H; apply skipn_all2; lia. Qed.

Lemma take_app_l (i : Z) (a b : string) :
  i <= len a -> take i (a ++ b) = take i a.
Proof.
  unfold len, take; intros H.
  rewrite firstn_app.
  replace (Z.to_nat i - List.length a)%nat with 0%nat by lia.
  simpl; apply app_nil_r.
Qed.

Lemma drop_app_l (i : Z) (a b : string) :
  i <= len a -> drop i (a ++ b) = drop i a ++ b.
Proof.
  unfold len, drop; intros H.
  rewrite skipn_app.
  replace (Z.to_nat i - List.length a)%nat with 0%nat by lia.
  reflexivity.
Qed.

Lemma take_app_r (i : Z) (a b : string) :
  len a <= i -> take i (a ++ b) = a ++ take (i - len a) b.
Proof.
  unfold len, take; intros H.
  rewrite firstn_app.
  rewrite firstn_all2 by lia.
  f_equal; f_equal; lia.
Qed.

Lemma drop_app_r (i : Z) (a b : string) :
  len a <= i -> drop i (a ++ b) = drop (i - len a) b.
Proof.
  unfold len, drop; intros H.
  rewrite skipn_app.
  rewrite skipn_all2 by lia.
  simpl; f_equal; lia.
Qed.

Lemma drop_drop (i j : Z) (s : string) :
  0 <= i -> 0 <= j -> drop j (drop i s) = drop (i + j) s.
Proof.
  unfold drop; intros Hi Hj.
  rewrite skipn_skipn; f_equal; lia.
Qed.

Lemma take_take_drop (i j : Z) (s : string) :
  0 <= i -> 0 <= j -> take i s ++ take j (drop i s) = take (i + j) s.
Proof.
  intros Hi Hj.
  rewrite <- (take_drop i s) at 3.
  destruct (Z_le_gt_dec (len s) i) as [Hle | Hgt].
  - rewrite (drop_all i s) by lia.
    rewrite (take_all i s) by lia.
    unfold take at 1 2; rewrite firstn_nil, !app_nil_r.
    symmetry; apply take_all; lia.
  - rewrite take_app_r by (rewrite len_take; lia).
    rewrite len_take by lia.
    do 2 f_equal; lia.
Qed.

Lemma clamp_id (s : string) (i : Z) : 0 <= i <= len s -> clamp s i = i.
Proof. unfold clamp; lia. Qed.

Lemma substring_valid (s : string) (a b : Z) :
  0 <= a <= b -> b <= len s ->
  substring s a b = take (b - a) (drop a s).
Proof.
  intros Ha Hb; unfold substring.
  rewrite !clamp_id by lia.
  rewrite Z.min_l, Z.max_r by lia.
  reflexivity.
Qed.

Lemma substring_prefix (s : string) (i : Z) :
  0 <= i <= len s -> substring s 0 i = take i s.
Proof.
  intros H; rewrite substring_valid by lia.
  rewrite drop_0; f_equal; lia.
Qed.

Lemma substring_from_valid (s : string) (i : Z) :
  0 <= i <= len s -> substring_from s i = drop i s.
Proof.
  intros H; unfold substring_from.
  rewrite substring_valid by lia.
  apply take_all; rewrite len_drop; lia.
Qed.

Lemma substring_whole (s : string) : substring s 0 (len s) = s.
Proof.
  pose proof (len_nonneg s).
  rewrite substring_prefix by lia.
  apply take_all; lia.
Qed.

Lemma substring_glue (s : string) (a m b : Z) :
  0 <= a <= m -> m <= b <= len s ->
  substring s a m ++ substring s m b = substring s a b.
Proof.
  intros Ha Hb.
  rewrite !substring_valid by lia.
  replace (drop m s) with (drop (m - a) (drop a s))
    by (rewrite drop_drop by lia; f_equal; lia).
  rewrite take_take_drop by lia.
  f_equal; lia.
Qed.

Lemma slice_valid (s : string) (a b : Z) :
  0 <= a <= b -> b <= len s ->
  slice s a b = take (b - a) (drop a s).
Proof.
  intros Ha Hb; unfold slice, slice_bound.
  destruct (Z.ltb_spec a 0); [lia |].
  destruct (Z.ltb_spec b 0); [lia |].
  rewrite !Z.min_l by lia.
  rewrite Z.max_l by lia.
  reflexivity.
Qed.

Lemma slice_prefix (s : string) (i : Z) :
  0 <= i <= len s -> slice s 0 i = take i s.
Proof.
  intros H; rewrite slice_valid by lia.
  rewrite drop_0; f_equal; lia.
Qed.

Lemma slice_suffix (s : string) (i : Z) :
  0 <= i <= len s -> slice s i (len s) = drop i s.
Proof.
  intros H; rewrite slice_valid by lia.
  apply take_all; rewrite len_drop; lia.
Qed.

Lemma index_app_l (a b : string) (i : Z) :
  0 <= i < len a -> index (a ++ b) i = index a i.
Proof.
  unfold index, len; intros H.
  destruct (Z.ltb_spec i 0); [lia |].
  rewrite nth_error_app1 by lia; reflexivity.
Qed.

Lemma index_app_r (a b : string) (i : Z) :
  len a <= i -> index (a ++ b) i = index b (i - len a).
Proof.
  unfold index, len; intros H.
  destruct (Z.ltb_spec i 0); [lia |].
  destruct (Z.ltb_spec (i - Z.of_nat (List.length a)) 0); [lia |].
  rewrite nth_error_app2 by lia.
  replace (Z.to_nat i - List.length a)%nat
    with (Z.to_nat (i - Z.of_nat (List.length a))) by lia.
  reflexivity.
Qed.

Lemma index_in_range (s : string) (i : Z) :
  0 <= i < len s -> exists c, index s i = Some [c].
Proof.
  unfold index, len; intros H.
  destruct (Z.ltb_spec i 0); [lia |].
  destruct (nth_error s (Z.to_nat i)) as [c |] eqn:E.
  - now exists c.
  - apply nth_error_None in E; lia.
Qed.

Lemma index_single (s : string) (i : Z) (c : string) :
  index s i = Some c -> len c = 1.
Proof.
  unfold index.
  destruct (i <? 0); [discriminate |].
  destruct (nth_error s (Z.to_nat i)); [| discriminate].
  intros E; injection E as <-; reflexivity.
Qed.

End JSFacts.

(** ** Facts about nodes *)

Module NodeFacts.
Import JSFacts.

(** Split the conjunctions that are visible in the goal, without unfolding
    an invariant into its own conjuncts. *)
Ltac conjs := repeat match goal with |- _ /\ _ => split end.

Lemma getNodeWeight_toString (n : RopeNode) :
  Rope.getNodeWeight_node n = JS.len (Rope.toString_node n).
Proof.
  induction n as [l r w v t h IHl IHr] using RopeNode_induction.
  destruct t; simpl; [reflexivity |].
  rewrite len_app.
  destruct l, r; simpl in *; rewrite ?IHl, ?IHr; reflexivity.
Qed.

Lemma getNodeWeight_toString_of (o : option RopeNode) :
  Rope.getNodeWeight o = JS.len (Rope.toString_of o).
Proof. destruct o; [apply getNodeWeight_toString | reflexivity]. Qed.

Lemma sum_len_app (a b : list JS.string) :
  fold_right Z.add 0 (map JS.len (a ++ b))
  = fold_right Z.add 0 (map JS.len a) + fold_right Z.add 0 (map JS.len b).
Proof. induction a as [| x a IH]; simpl; [reflexivity | rewrite IH; lia]. Qed.

Lemma leafLengthSum_getNodeWeight (o : option RopeNode) :
  leafLengthSum o = Rope.getNodeWeight o.
Proof.
  destruct o as [n |]; [| reflexivity]; simpl.
  induction n as [l r w v t h IHl IHr] using RopeNode_induction.
  destruct t; simpl; [lia |].
  rewrite sum_len_app.
  destruct l, r; simpl in *; rewrite ?IHl, ?IHr; reflexivity.
Qed.

Lemma wf_height_pos (n : RopeNode) : wf n -> 1 <= height n.
Proof.
  induction n as [l r w v t h IHl IHr] using RopeNode_induction.
  destruct t; simpl.
  - intros (_ & _ & _ & ->); lia.
  - destruct l as [a |]; [| contradiction].
    destruct r as [b |]; [| contradiction].
    simpl in *; intros (Ha & Hb & _ & ->).
    specialize (IHl Ha); lia.
Qed.

Lemma wf_leaf (n : RopeNode) :
  wf n -> type n = LEAF ->
  left n = None /\ right n = None /\ weight n = JS.len (value n) /\ height n = 1.
Proof. destruct n as [l r w v t h]; simpl; intros H ->; exact H. Qed.

Lemma wf_internal (n : RopeNode) :
  wf n -> type n = INTERNAL ->
  exists l r, left n = Some l /\ right n = Some r /\ wf l /\ wf r
              /\ weight n = Rope.getNodeWeight_node l
              /\ height n = Z.max (height l) (height r) + 1.
Proof.
  destruct n as [l r w v t h]; simpl; intros H ->.
  destruct l as [a |]; [| contradiction].
  destruct r as [b |]; [| contradiction].
  exists a, b; tauto.
Qed.

(** A node taller than a leaf is an internal node. *)
Lemma wf_tall (n : RopeNode) : wf n -> 1 < height n -> type n = INTERNAL.
Proof.
  intros H Hh; destruct (type n) eqn:E; [| reflexivity].
  destruct (wf_leaf n H E) as (_ & _ & _ & ?); lia.
Qed.

Lemma wf_new_RopeNode (v : JS.string) : wf (new_RopeNode v).
Proof. simpl; auto. Qed.

Lemma updateNodeMetadata_shell (n l r : RopeNode) :
  shell n l r -> wf l -> wf r ->
  wf (Rope.updateNodeMetadata n)
  /\ shell (Rope.updateNodeMetadata n) l r
  /\ height (Rope.updateNodeMetadata n) = Z.max (height l) (height r) + 1.
Proof.
  destruct n as [nl nr w v t h]; unfold shell; simpl.
  intros (-> & -> & ->) Hl Hr; simpl; auto 10.
Qed.

Lemma toString_shell (n l r : RopeNode) :
  shell n l r ->
  Rope.toString_node n = Rope.toString_node l ++ Rope.toString_node r.
Proof.
  destruct n as [nl nr w v t h]; unfold shell; simpl.
  intros (-> & -> & ->); reflexivity.
Qed.

Lemma wf_shell (n : RopeNode) :
  wf n -> type n = INTERNAL -> exists l r, shell n l r /\ wf l /\ wf r
    /\ height n = Z.max (height l) (height r) + 1.
Proof.
  intros H E; destruct (wf_internal n H E) as (l & r & ? & ? & ? & ? & ? & ?).
  exists l, r; unfold shell; auto 10.
Qed.

Lemma rotateRight_ok (y x c : RopeNode) :
  shell y x c -> type x = INTERNAL -> wf x -> wf c ->
  exists z, Rope.rotateRight y = Ok z /\ wf z /\ type z = INTERNAL
            /\ Rope.toString_node z = Rope.toString_node x ++ Rope.toString_node c.
Proof.
  intros (Ty & Ly & Ry) Tx Hx Hc.
  destruct (wf_shell x Hx Tx) as (a & b & (_ & La & Rb) & Ha & Hb & _).
  unfold Rope.rotateRight; rewrite Ly, Rb.
  eexists; split; [reflexivity |].
  destruct y as [yl yr yw yv yt yh], x as [xl xr xw xv xt xh].
  simpl in *; subst; simpl.
  rewrite <- app_assoc; auto 10.
Qed.

Lemma rotateLeft_ok (x a y : RopeNode) :
  shell x a y -> type y = INTERNAL -> wf a -> wf y ->
  exists z, Rope.rotateLeft x = Ok z /\ wf z /\ type z = INTERNAL
            /\ Rope.toString_node z = Rope.toString_node a ++ Rope.toString_node y.
Proof.
  intros (Tx & Lx & Rx) Ty Ha Hy.
  destruct (wf_shell y Hy Ty) as (b & c & (_ & Lb & Rc) & Hb & Hc & _).
  unfold Rope.rotateLeft; rewrite Rx, Lb.
  eexists; split; [reflexivity |].
  destruct x as [xl xr xw xv xt xh], y as [yl yr yw yv yt yh].
  simpl in *; subst; simpl.
  rewrite app_assoc; auto 10.
Qed.

Lemma shell_set_left (n l r l' : RopeNode) :
  shell n l r -> shell (set_left n (Some l')) l' r.
Proof. destruct n; unfold shell; simpl; tauto. Qed.

Lemma shell_set_right (n l r r' : RopeNode) :
  shell n l r -> shell (set_right n (Some r')) l r'.
Proof. destruct n; unfold shell; simpl; tauto. Qed.

Lemma balance_ok (n l r : RopeNode) :
  shell n l r -> wf l -> wf r ->
  exists z, Rope.balance n = Ok z /\ wf z
            /\ Rope.toString_node z = Rope.toString_node l ++ Rope.toString_node r.
Proof.
  intros Hn Hl Hr.
  destruct (updateNodeMetadata_shell n l r Hn Hl Hr) as (Hwf & Hs & Hh).
  pose proof (wf_height_pos l Hl) as Pl.
  pose proof (wf_height_pos r Hr) as Pr.
  unfold Rope.balance.
  set (m := Rope.updateNodeMetadata n) in *.
  assert (Hbf : Rope.getBalanceFactor (Some m) = height l - height r).
  { destruct Hs as (_ & Lm & Rm); simpl; rewrite Lm, Rm; reflexivity. }
  rewrite Hbf.
  assert (Lm : left m = Some l) by apply Hs.
  assert (Rm : right m = Some r) by apply Hs.
  destruct (Z.gtb_spec (height l - height r) 1) as [Hgt | Hle].
  - (* left heavy *)
    assert (Tl : type l = INTERNAL) by (apply wf_tall; [assumption | lia]).
    rewrite Lm.
    destruct (Z.geb_spec (Rope.getBalanceFactor (Some l)) 0) as [Hge | Hlt].
    + destruct (rotateRight_ok m l r Hs Tl Hl Hr) as (z & -> & Hz & _ & Sz).
      exists z; auto.
    + destruct (wf_shell l Hl Tl) as (a & b & Hsl & Ha & Hb & _).
      assert (Tb : type b = INTERNAL).
      { apply wf_tall; [assumption |].
        pose proof (wf_height_pos a Ha).
        destruct Hsl as (_ & La & Rb); simpl in Hlt; rewrite La, Rb in Hlt.
        simpl in Hlt; lia. }
      destruct (rotateLeft_ok l a b Hsl Tb Ha Hb) as (l' & El & Hl' & Tl' & Sl').
      simpl; rewrite El; simpl.
      destruct (rotateRight_ok _ l' r (shell_set_left m l r l' Hs) Tl' Hl' Hr)
        as (z & -> & Hz & _ & Sz).
      exists z; repeat split; [assumption |].
      rewrite Sz, Sl', (toString_shell l a b Hsl); reflexivity.
  - destruct (Z.ltb_spec (height l - height r) (-1)) as [Hlt | Hge].
    + (* right heavy *)
      assert (Tr : type r = INTERNAL) by (apply wf_tall; [assumption | lia]).
      rewrite Rm.
      destruct (Z.leb_spec (Rope.getBalanceFactor (Some r)) 0) as [Hle0 | Hgt0].
      * destruct (rotateLeft_ok m l r Hs Tr Hl Hr) as (z & -> & Hz & _ & Sz).
        exists z; auto.
      * destruct (wf_shell r Hr Tr) as (a & b & Hsr & Ha & Hb & _).
        assert (Ta : type a = INTERNAL).
        { apply wf_tall; [assumption |].
          pose proof (wf_height_pos b Hb).
          destruct Hsr as (_ & La & Rb); simpl in Hgt0; rewrite La, Rb in Hgt0.
          simpl in Hgt0; lia. }
        destruct (rotateRight_ok r a b Hsr Ta Ha Hb) as (r' & Er & Hr' & Tr' & Sr').
        simpl; rewrite Er; simpl.
        destruct (rotateLeft_ok _ l r' (shell_set_right m l r r' Hs) Tr' Hl Hr')
          as (z & -> & Hz & _ & Sz).
        exists z; repeat split; [assumption |].
        rewrite Sz, Sr', (toString_shell r a b Hsr); reflexivity.
    + exists m; repeat split; [assumption |].
      apply toString_shell; assumption.
Qed.

(** [concat] of two well-formed operands returns a well-formed tree over
    the concatenated text. *)
Lemma concat_ok (l r : option RopeNode) :
  onSome wf l -> onSome wf r ->
  exists z, Rope.concat l r = Ok z /\ onSome wf z
            /\ Rope.toString_of z = Rope.toString_of l ++ Rope.toString_of r
            /\ (z = None -> l = None /\ r = None).
Proof.
  intros Hl Hr.
  destruct l as [ln |]; simpl; cycle 1.
  { exists r; repeat split; auto. }
  destruct r as [rn |]; simpl; cycle 1.
  { exists (Some ln); repeat split; auto; try discriminate.
    simpl; rewrite app_nil_r; reflexivity. }
  simpl in Hl, Hr.
  destruct (isLEAF (type ln) && isLEAF (type rn)
            && (JS.len (value ln) + JS.len (value rn)
                <=? Rope.LEAF_LENGTH_THRESHOLD)) eqn:E.
  - apply andb_prop in E as (E & _).
    apply andb_prop in E as (Tl & Tr).
    destruct ln as [ll lr lw lv lt lh], rn as [rl rr rw rv rt rh].
    simpl in *.
    destruct lt; [| discriminate]; destruct rt; [| discriminate].
    simpl in *.
    destruct Hl as (-> & -> & _ & ->).
    eexists; split; [reflexivity |].
    simpl; repeat split; auto; discriminate.
  - set (node := Rope.updateNodeMetadata _).
    assert (Hs0 : shell (set_right (set_left (set_type (new_RopeNode []) INTERNAL)
                                     (Some ln)) (Some rn)) ln rn)
      by (unfold shell; simpl; auto).
    destruct (updateNodeMetadata_shell _ ln rn Hs0 Hl Hr) as (_ & Hs & _).
    fold node in Hs.
    destruct (balance_ok node ln rn Hs Hl Hr) as (z & -> & Hz & Sz).
    exists (Some z); simpl; repeat split; auto; discriminate.
Qed.

#[local] Arguments Rope.concat : simpl never.

Lemma split_leaf (n : RopeNode) (index : Z) :
  type n = LEAF ->
  Rope.split n index =
    if index =? 0 then Ok (None, Some n)
    else if index =? JS.len (value n) then Ok (Some n, None)
    else Ok (Some (new_RopeNode (JS.substring (value n) 0 index)),
             Some (new_RopeNode (JS.substring_from (value n) index))).
Proof. destruct n; simpl; intros ->; reflexivity. Qed.

Lemma split_internal_left (n a : RopeNode) (index : Z) :
  type n = INTERNAL -> left n = Some a -> index < weight n ->
  Rope.split n index =
    ('(l, r) <- Rope.split a index ;;
     rightSubtree <- match r with
                     | Some _ => Rope.concat r (right n)
                     | None => Ok (right n)
                     end ;;
     Ok (l, rightSubtree)).
Proof.
  destruct n; simpl; intros -> -> H.
  destruct (Z.ltb_spec index weight0); [reflexivity | lia].
Qed.

Lemma split_internal_right (n b : RopeNode) (index : Z) :
  type n = INTERNAL -> right n = Some b -> weight n <= index ->
  Rope.split n index =
    ('(l, r) <- Rope.split b (index - weight n) ;;
     leftSubtree <- match l with
                    | Some _ => Rope.concat (left n) l
                    | None => Ok (left n)
                    end ;;
     Ok (leftSubtree, r)).
Proof.
  destruct n; simpl; intros -> -> H.
  destruct (Z.ltb_spec index weight0); [lia | reflexivity].
Qed.

(** [split] cuts the text of a well-formed tree at [index]. *)
Lemma split_ok (n : RopeNode) :
  wf n -> forall index, 0 <= index <= JS.len (Rope.toString_node n) ->
  exists l r,
    Rope.split n index = Ok (l, r)
    /\ onSome wf l /\ onSome wf r
    /\ Rope.toString_of l = RefString.take index (Rope.toString_node n)
    /\ Rope.toString_of r = RefString.drop index (Rope.toString_node n)
    /\ (r = None -> index = JS.len (Rope.toString_node n)).
Proof.
  induction n as [nl nr w v t h IHl IHr] using RopeNode_induction.
  intros Hwf index Hi.
  destruct t.
  - (* leaf *)
    rewrite split_leaf by reflexivity.
    simpl in Hi |- *.
    destruct (Z.eqb_spec index 0) as [-> | N0].
    { exists None, (Some (mkRopeNode nl nr w v LEAF h)).
      conjs; try exact Hwf; try exact I; try reflexivity; discriminate. }
    destruct (Z.eqb_spec index (JS.len v)) as [-> | Nl].
    { exists (Some (mkRopeNode nl nr w v LEAF h)), None.
      conjs; try exact Hwf; try exact I; try reflexivity; simpl.
      - symmetry; apply take_all; lia.
      - symmetry; apply drop_all; lia. }
    do 2 eexists; split; [reflexivity |].
    conjs; try apply wf_new_RopeNode; simpl.
    + apply substring_prefix; lia.
    + apply substring_from_valid; lia.
    + discriminate.
  - (* internal node *)
    destruct (wf_internal _ Hwf eq_refl) as (a & b & La & Rb & Ha & Hb & Hw & _).
    simpl in La, Rb, Hw; subst nl nr.
    simpl in IHl, IHr.
    rewrite getNodeWeight_toString in Hw.
    assert (Hstr : Rope.toString_node (mkRopeNode (Some a) (Some b) w v INTERNAL h)
                   = Rope.toString_node a ++ Rope.toString_node b) by reflexivity.
    rewrite Hstr in *; clear Hstr.
    rewrite len_app in Hi.
    destruct (Z_lt_ge_dec index w) as [Hlt | Hge].
    + rewrite (split_internal_left _ a) by (simpl; auto).
      destruct (IHl Ha index ltac:(lia)) as (l & r & -> & Hl & Hr & Sl & Sr & _).
      simpl.
      assert (exists z, match r with
                        | Some _ => Rope.concat r (Some b)
                        | None => Ok (Some b)
                        end = Ok z
                        /\ onSome wf z
                        /\ Rope.toString_of z
                           = Rope.toString_of r ++ Rope.toString_node b
                        /\ z <> None) as (z & -> & Hz & Sz & Nz).
      { destruct r as [rn |].
        - destruct (concat_ok (Some rn) (Some b) Hr Hb) as (z & -> & Hz & Sz & Nz).
          exists z; conjs; auto.
          intros E; destruct (Nz E); discriminate.
        - exists (Some b); conjs; auto; discriminate. }
      simpl; exists l, z; conjs; auto.
      * rewrite Sl; symmetry; apply take_app_l; lia.
      * rewrite Sz, Sr; symmetry; apply drop_app_l; lia.
      * intros E; contradiction.
    + rewrite (split_internal_right _ b) by (simpl; auto; lia).
      simpl weight.
      destruct (IHr Hb (index - w) ltac:(lia)) as (l & r & -> & Hl & Hr & Sl & Sr & Nr).
      simpl.
      assert (exists z, match l with
                        | Some _ => Rope.concat (Some a) l
                        | None => Ok (Some a)
                        end = Ok z
                        /\ onSome wf z
                        /\ Rope.toString_of z
                           = Rope.toString_node a ++ Rope.toString_of l)
        as (z & -> & Hz & Sz).
      { destruct l as [ln |].
        - destruct (concat_ok (Some a) (Some ln) Ha Hl) as (z & -> & Hz & Sz & _).
          exists z; conjs; auto.
        - exists (Some a); conjs; auto.
          simpl; rewrite app_nil_r; reflexivity. }
      simpl; exists z, r; conjs; auto.
      * rewrite Sz, Sl, Hw; symmetry; apply take_app_r; lia.
      * rewrite Sr, Hw; symmetry; apply drop_app_r; lia.
      * intros E; specialize (Nr E); rewrite len_app; lia.
Qed.

End NodeFacts.

(** ** The tree builder *)

Module BuilderFacts.
Import JSFacts NodeFacts.

(** Linear arithmetic with the midpoint [(start + end) / 2]. *)
Ltac dlia := Z.div_mod_to_equations; lia.

Lemma createOptimalTree_fuel_leaf (fuel : nat) (str : JS.string) (s e : Z) :
  e - s <= Rope.LEAF_LENGTH_THRESHOLD ->
  Rope.createOptimalTree_fuel fuel str s e = new_RopeNode (JS.substring str s e).
Proof.
  intros H; destruct fuel; simpl;
    destruct (Z.leb_spec (e - s) Rope.LEAF_LENGTH_THRESHOLD); auto; dlia.
Qed.

Lemma createOptimalTree_fuel_node (fuel : nat) (str : JS.string) (s e : Z) :
  Rope.LEAF_LENGTH_THRESHOLD < e - s ->
  Rope.createOptimalTree_fuel (S fuel) str s e =
    Rope.updateNodeMetadata
      (set_right
         (set_left (set_type (new_RopeNode []) INTERNAL)
            (Some (Rope.createOptimalTree_fuel fuel str s ((s + e) / 2))))
         (Some (Rope.createOptimalTree_fuel fuel str ((s + e) / 2) e))).
Proof.
  intros H; simpl.
  destruct (Z.leb_spec (e - s) Rope.LEAF_LENGTH_THRESHOLD); [dlia | reflexivity].
Qed.

(** Fuel beyond the length of the range changes nothing. *)
Lemma createOptimalTree_fuel_enough (f1 : nat) :
  forall (f2 : nat) (str : JS.string) (s e : Z),
    e - s <= Z.of_nat f1 -> e - s <= Z.of_nat f2 ->
    Rope.createOptimalTree_fuel f1 str s e = Rope.createOptimalTree_fuel f2 str s e.
Proof.
  induction f1 as [| f1 IH]; intros f2 str s e H1 H2.
  - rewrite !createOptimalTree_fuel_leaf; auto; unfold Rope.LEAF_LENGTH_THRESHOLD; dlia.
  - destruct (Z_le_gt_dec (e - s) Rope.LEAF_LENGTH_THRESHOLD) as [Hle | Hgt].
    + rewrite !createOptimalTree_fuel_leaf; auto.
    + destruct f2 as [| f2]; [unfold Rope.LEAF_LENGTH_THRESHOLD in Hgt; dlia |].
      rewrite !createOptimalTree_fuel_node by dlia.
      unfold Rope.LEAF_LENGTH_THRESHOLD in Hgt.
      rewrite (IH f2 str s ((s + e) / 2)) by dlia.
      rewrite (IH f2 str ((s + e) / 2) e) by dlia.
      reflexivity.
Qed.

(** The model satisfies the recursion equation of the source: the fuel that
    [createOptimalTree] starts with is never used up. *)
Lemma createOptimalTree_unfold (str : JS.string) (s e : Z) :
  Rope.createOptimalTree str s e =
    if e - s <=? Rope.LEAF_LENGTH_THRESHOLD
    then new_RopeNode (JS.substring str s e)
    else
      Rope.updateNodeMetadata
        (set_right
           (set_left (set_type (new_RopeNode []) INTERNAL)
              (Some (Rope.createOptimalTree str s ((s + e) / 2))))
           (Some (Rope.createOptimalTree str ((s + e) / 2) e))).
Proof.
  unfold Rope.createOptimalTree.
  destruct (Z.leb_spec (e - s) Rope.LEAF_LENGTH_THRESHOLD) as [Hle | Hgt].
  - apply createOptimalTree_fuel_leaf; assumption.
  - unfold Rope.LEAF_LENGTH_THRESHOLD in Hgt.
    destruct (Z.to_nat (e - s)) as [| f] eqn:E; [dlia |].
    rewrite createOptimalTree_fuel_node by (unfold Rope.LEAF_LENGTH_THRESHOLD; dlia).
    rewrite (createOptimalTree_fuel_enough f (Z.to_nat ((s + e) / 2 - s))) by dlia.
    rewrite (createOptimalTree_fuel_enough f (Z.to_nat (e - (s + e) / 2))
               str ((s + e) / 2) e) by dlia.
    reflexivity.
Qed.

(** The built tree is well formed and spells the requested range. *)
Lemma createOptimalTree_fuel_ok (fuel : nat) :
  forall (str : JS.string) (s e : Z),
    0 <= s <= e -> e <= JS.len str ->
    wf (Rope.createOptimalTree_fuel fuel str s e)
    /\ Rope.toString_node (Rope.createOptimalTree_fuel fuel str s e)
       = JS.substring str s e.
Proof.
  induction fuel as [| fuel IH]; intros str s e Hs He.
  - simpl; destruct (e - s <=? Rope.LEAF_LENGTH_THRESHOLD);
      split; try apply wf_new_RopeNode; reflexivity.
  - destruct (Z_le_gt_dec (e - s) Rope.LEAF_LENGTH_THRESHOLD) as [Hle | Hgt].
    + rewrite createOptimalTree_fuel_leaf by assumption.
      split; [apply wf_new_RopeNode | reflexivity].
    + rewrite createOptimalTree_fuel_node by dlia.
      destruct (IH str s ((s + e) / 2)) as (Wl & Sl); [dlia | dlia |].
      destruct (IH str ((s + e) / 2) e) as (Wr & Sr); [dlia | dlia |].
      set (l := Rope.createOptimalTree_fuel fuel str s ((s + e) / 2)) in *.
      set (r := Rope.createOptimalTree_fuel fuel str ((s + e) / 2) e) in *.
      set (node := set_right _ _).
      assert (Hs0 : shell node l r) by (unfold shell; simpl; auto).
      destruct (updateNodeMetadata_shell node l r Hs0 Wl Wr) as (W & Sh & _).
      split; [assumption |].
      rewrite (toString_shell _ l r Sh), Sl, Sr.
      apply substring_glue; dlia.
Qed.

Lemma createOptimalTree_ok (str : JS.string) :
  wf (Rope.createOptimalTree str 0 (JS.len str))
  /\ Rope.toString_node (Rope.createOptimalTree str 0 (JS.len str)) = str.
Proof.
  pose proof (len_nonneg str).
  destruct (createOptimalTree_fuel_ok (Z.to_nat (JS.len str - 0)) str 0 (JS.len str))
    as (W & S); [dlia | dlia |].
  split; [exact W |].
  unfold Rope.createOptimalTree; rewrite S; apply substring_whole.
Qed.

(** *** Height balance of the built tree *)

Lemma shapeHeight_pos (fuel : nat) (n : Z) : 1 <= shapeHeight fuel n.
Proof.
  revert n; induction fuel as [| fuel IH]; intros n; simpl;
    destruct (n <=? Rope.LEAF_LENGTH_THRESHOLD); try lia.
  pose proof (IH (n / 2)); lia.
Qed.

(** One more code unit raises the height by at most one, and never lowers
    it. *)
Lemma shapeHeight_step (fuel : nat) :
  forall n, shapeHeight fuel n <= shapeHeight fuel (n + 1) <= shapeHeight fuel n + 1.
Proof.
  induction fuel as [| fuel IH]; intros n.
  - simpl; destruct (n <=? _), (n + 1 <=? _); dlia.
  - simpl.
    destruct (Z.leb_spec n Rope.LEAF_LENGTH_THRESHOLD) as [Hn | Hn];
      destruct (Z.leb_spec (n + 1) Rope.LEAF_LENGTH_THRESHOLD) as [Hn1 | Hn1];
      unfold Rope.LEAF_LENGTH_THRESHOLD in *; try dlia.
    + (* n = 1024 *)
      assert (n = 1024) as -> by dlia.
      change ((1024 + 1) / 2) with 512.
      change (1024 + 1 - 512) with 513.
      destruct fuel; simpl; dlia.
    + destruct (Z.even n) eqn:Ev.
      * apply Z.even_spec in Ev as (k & ->).
        replace (2 * k / 2) with k by dlia.
        replace ((2 * k + 1) / 2) with k by dlia.
        replace (2 * k - k) with k by dlia.
        replace (2 * k + 1 - k) with (k + 1) by dlia.
        pose proof (IH k); dlia.
      * assert (Od : Z.odd n = true) by (rewrite <- Z.negb_even, Ev; reflexivity).
        apply Z.odd_spec in Od as (k & ->).
        replace ((2 * k + 1) / 2) with k by dlia.
        replace ((2 * k + 1 + 1) / 2) with (k + 1) by dlia.
        replace (2 * k + 1 - k) with (k + 1) by dlia.
        replace (2 * k + 1 + 1 - (k + 1)) with (k + 1) by dlia.
        pose proof (IH k); dlia.
Qed.

Lemma shapeHeight_halves (fuel : nat) (n : Z) :
  Z.abs (shapeHeight fuel (n / 2) - shapeHeight fuel (n - n / 2)) <= 1.
Proof.
  assert (n - n / 2 = n / 2 \/ n - n / 2 = n / 2 + 1) as [-> | ->] by dlia.
  - dlia.
  - pose proof (shapeHeight_step fuel (n / 2)); dlia.
Qed.

Lemma checkBalance_shell (n l r : RopeNode) :
  shell n l r ->
  Rope.checkBalance_node n =
    let leftHeight := Rope.checkBalance_node l in
    if leftHeight =? -1 then -1
    else
      let rightHeight := Rope.checkBalance_node r in
      if rightHeight =? -1 then -1
      else if Z.abs (leftHeight - rightHeight) >? 1 then -1
      else Z.max leftHeight rightHeight + 1.
Proof. destruct n; unfold shell; simpl; intros (_ & -> & ->); reflexivity. Qed.

Lemma checkBalance_updateNodeMetadata (n : RopeNode) :
  Rope.checkBalance_node (Rope.updateNodeMetadata n) = Rope.checkBalance_node n.
Proof. destruct n as [l r w v t h]; destruct t; reflexivity. Qed.

(** [checkBalance] finds no violation in a built tree and measures the
    height that the bisection predicts. *)
Lemma checkBalance_createOptimalTree_fuel (fuel : nat) :
  forall (str : JS.string) (s e : Z),
    Rope.checkBalance_node (Rope.createOptimalTree_fuel fuel str s e)
    = shapeHeight fuel (e - s).
Proof.
  induction fuel as [| fuel IH]; intros str s e.
  - simpl; destruct (e - s <=? Rope.LEAF_LENGTH_THRESHOLD); reflexivity.
  - destruct (Z_le_gt_dec (e - s) Rope.LEAF_LENGTH_THRESHOLD) as [Hle | Hgt].
    + rewrite createOptimalTree_fuel_leaf by assumption.
      simpl; destruct (Z.leb_spec (e - s) Rope.LEAF_LENGTH_THRESHOLD); [reflexivity | dlia].
    + rewrite createOptimalTree_fuel_node by dlia.
      rewrite checkBalance_updateNodeMetadata.
      erewrite checkBalance_shell by (unfold shell; simpl; repeat split; reflexivity).
      rewrite !IH.
      replace ((s + e) / 2 - s) with ((e - s) / 2) by dlia.
      replace (e - (s + e) / 2) with (e - s - (e - s) / 2) by dlia.
      cbv zeta.
      pose proof (shapeHeight_pos fuel ((e - s) / 2)).
      pose proof (shapeHeight_pos fuel (e - s - (e - s) / 2)).
      pose proof (shapeHeight_halves fuel (e - s)).
      destruct (Z.eqb_spec (shapeHeight fuel ((e - s) / 2)) (-1)); [dlia |].
      destruct (Z.eqb_spec (shapeHeight fuel (e - s - (e - s) / 2)) (-1)); [dlia |].
      destruct (Z.gtb_spec (Z.abs (shapeHeight fuel ((e - s) / 2)
                                   - shapeHeight fuel (e - s - (e - s) / 2))) 1);
        [dlia |].
      simpl shapeHeight.
      destruct (Z.leb_spec (e - s) Rope.LEAF_LENGTH_THRESHOLD); [dlia | reflexivity].
Qed.

End BuilderFacts.

(** ** The public methods on a well-formed rope *)

Module RopeFacts.
Import JSFacts NodeFacts BuilderFacts.

#[local] Arguments Rope.concat : simpl never.
#[local] Arguments Rope.split : simpl never.

Lemma length_toString (r : Rope.t) :
  Rope.length r = JS.len (Rope.toString r).
Proof.
  destruct r as [[n |]]; [| reflexivity].
  apply getNodeWeight_toString.
Qed.

Lemma new_ok (s : JS.string) :
  wfRope (Rope.new s) /\ Rope.toString (Rope.new s) = s.
Proof.
  unfold Rope.new; destruct s as [| c s]; simpl;
    [split; [exact I | reflexivity] |].
  apply (createOptimalTree_ok (c :: s)).
Qed.

Lemma insert_throw (r : Rope.t) (i : Z) (text : JS.string) :
  i < 0 \/ i > Rope.length r ->
  Rope.insert r i text = (r, Throw IndexOutOfBounds).
Proof.
  intros H; unfold Rope.insert.
  destruct (Z.ltb_spec i 0); [reflexivity |].
  destruct (Z.gtb_spec i (Rope.length r)); [reflexivity | lia].
Qed.

Lemma insert_ok (r : Rope.t) (i : Z) (text : JS.string) :
  wfRope r -> 0 <= i <= Rope.length r ->
  exists r',
    Rope.insert r i text = (r', Ok tt)
    /\ wfRope r'
    /\ Rope.toString r'
       = RefString.take i (Rope.toString r) ++ text
         ++ RefString.drop i (Rope.toString r).
Proof.
  intros Hwf Hi; unfold Rope.insert.
  destruct (Z.ltb_spec i 0); [lia |].
  destruct (Z.gtb_spec i (Rope.length r)); [lia |].
  rewrite length_toString in Hi.
  destruct r as [[n |]]; unfold wfRope, Rope.toString in *; simpl in *.
  - destruct (split_ok n Hwf i Hi) as (l & rt & -> & Hl & Hr & Sl & Sr & _).
    simpl.
    pose proof (wf_new_RopeNode text) as Hnew.
    destruct l as [ln |].
    + destruct (concat_ok (Some ln) (Some (new_RopeNode text)) Hl Hnew)
        as (temp & -> & Ht & St & _).
      simpl.
      destruct (concat_ok temp rt Ht Hr) as (z & -> & Hz & Sz & _).
      exists (Rope.mk z); conjs; auto.
      simpl; rewrite Sz, St, Sl, Sr, <- app_assoc; reflexivity.
    + destruct (concat_ok (Some (new_RopeNode text)) rt Hnew Hr)
        as (z & -> & Hz & Sz & _).
      exists (Rope.mk z); conjs; auto.
      simpl; rewrite Sz, Sr, <- Sl; reflexivity.
  - assert (i = 0) as -> by (unfold JS.len in Hi; simpl in Hi; lia).
    eexists; conjs; [reflexivity | exact (wf_new_RopeNode text) |].
    simpl; rewrite app_nil_r; reflexivity.
Qed.

Lemma delete_throw (r : Rope.t) (s e : Z) :
  s <> e -> s < 0 \/ e > Rope.length r \/ s > e ->
  Rope.delete r s e = (r, Throw InvalidRange).
Proof.
  intros Hne H; unfold Rope.delete.
  destruct (Z.eqb_spec s e); [contradiction |].
  destruct (Z.ltb_spec s 0); [reflexivity |].
  destruct (Z.gtb_spec e (Rope.length r)); [reflexivity |].
  destruct (Z.geb_spec s e); [reflexivity | lia].
Qed.

(** The two cuts that [delete] and [substring] share. *)
Lemma double_split (n : RopeNode) (s e : Z) :
  wf n -> 0 <= s -> s < e -> e <= JS.len (Rope.toString_node n) ->
  exists l temp middle rt,
    Rope.split_at (Some n) s = Ok (l, temp)
    /\ Rope.split_at temp (e - s) = Ok (middle, rt)
    /\ onSome wf l /\ onSome wf middle /\ onSome wf rt
    /\ Rope.toString_of l = RefString.take s (Rope.toString_node n)
    /\ Rope.toString_of middle
       = RefString.take (e - s) (RefString.drop s (Rope.toString_node n))
    /\ Rope.toString_of rt = RefString.drop e (Rope.toString_node n).
Proof.
  intros Hwf Hs Hse He.
  destruct (split_ok n Hwf s ltac:(lia)) as (l & temp & E1 & Hl & Ht & Sl & St & Nt).
  destruct temp as [tn |]; [| specialize (Nt eq_refl); lia].
  simpl in Ht, St.
  assert (Hlen : JS.len (Rope.toString_node tn) = JS.len (Rope.toString_node n) - s)
    by (rewrite St; apply len_drop; lia).
  destruct (split_ok tn Ht (e - s) ltac:(lia))
    as (middle & rt & E2 & Hm & Hr & Sm & Sr & _).
  exists l, (Some tn), middle, rt; conjs; auto.
  - rewrite Sm, St; reflexivity.
  - rewrite Sr, St, drop_drop by lia; f_equal; lia.
Qed.

Lemma delete_ok (r : Rope.t) (s e : Z) :
  wfRope r -> 0 <= s -> s < e -> e <= Rope.length r ->
  exists r',
    Rope.delete r s e = (r', Ok tt)
    /\ wfRope r'
    /\ Rope.toString r'
       = RefString.take s (Rope.toString r) ++ RefString.drop e (Rope.toString r).
Proof.
  intros Hwf Hs Hse He; unfold Rope.delete.
  destruct (Z.eqb_spec s e); [lia |].
  destruct (Z.ltb_spec s 0); [lia |].
  destruct (Z.gtb_spec e (Rope.length r)); [lia |].
  destruct (Z.geb_spec s e); [lia |].
  rewrite length_toString in He.
  destruct r as [[root |]]; unfold wfRope, Rope.toString in *; simpl in *;
    [| unfold JS.len in He; simpl in He; lia].
  destruct (double_split root s e Hwf Hs Hse He)
    as (l & temp & middle & rt & E1 & E2 & Hl & _ & Hr & Sl & _ & Sr).
  simpl in E1; rewrite E1; simpl; rewrite E2; simpl.
  destruct l as [ln |].
  - destruct (concat_ok (Some ln) rt Hl Hr) as (z & -> & Hz & Sz & _).
    exists (Rope.mk z); conjs; auto.
    simpl; rewrite Sz, Sl, Sr; reflexivity.
  - exists (Rope.mk rt); conjs; auto.
    simpl; rewrite Sr, <- Sl; reflexivity.
Qed.

Lemma substring_throw (r : Rope.t) (s e : Z) :
  s < 0 \/ e > Rope.length r \/ s > e ->
  Rope.substring r s e = (r, Throw InvalidRange).
Proof.
  intros H; unfold Rope.substring.
  destruct (Z.ltb_spec s 0); [reflexivity |].
  destruct (Z.gtb_spec e (Rope.length r)); [reflexivity |].
  destruct (Z.gtb_spec s e); [reflexivity | lia].
Qed.

Lemma substring_ok (r : Rope.t) (s e : Z) :
  wfRope r -> 0 <= s <= e -> e <= Rope.length r ->
  exists r',
    Rope.substring r s e
    = (r', Ok (RefString.take (e - s) (RefString.drop s (Rope.toString r))))
    /\ wfRope r'
    /\ Rope.toString r' = Rope.toString r.
Proof.
  intros Hwf Hs He; unfold Rope.substring.
  destruct (Z.ltb_spec s 0); [lia |].
  destruct (Z.gtb_spec e (Rope.length r)); [lia |].
  destruct (Z.gtb_spec s e); [lia |].
  simpl.
  destruct (Z.eqb_spec s e) as [-> | Hne].
  { exists r; conjs; auto.
    rewrite Z.sub_diag; reflexivity. }
  destruct ((s =? 0) && (e =? Rope.length r)) eqn:Full.
  { apply andb_prop in Full as (E0 & E1).
    apply Z.eqb_eq in E0, E1; subst s.
    exists r; conjs; auto.
    rewrite drop_0, Z.sub_0_r, take_all; [reflexivity |].
    rewrite <- length_toString; lia. }
  rewrite length_toString in He.
  destruct r as [[root |]]; unfold wfRope, Rope.toString in *; simpl in *;
    [| unfold JS.len in He; simpl in He; lia].
  destruct (double_split root s e Hwf ltac:(lia) ltac:(lia) He)
    as (l & temp & middle & rt & E1 & E2 & Hl & Hm & Hr & Sl & Sm & Sr).
  simpl in E1; rewrite E1; simpl; rewrite E2; simpl.
  assert (Res : match middle with
                | Some _ => Rope.toString_of middle
                | None => []
                end = Rope.toString_of middle) by (destruct middle; reflexivity).
  rewrite Res, Sm.
  assert (exists fp, match l with
                     | Some _ => Rope.concat l middle
                     | None => Ok middle
                     end = Ok fp
                     /\ onSome wf fp
                     /\ Rope.toString_of fp
                        = Rope.toString_of l ++ Rope.toString_of middle)
    as (fp & -> & Hfp & Sfp).
  { destruct l as [ln |].
    - destruct (concat_ok (Some ln) middle Hl Hm) as (z & -> & Hz & Sz & _).
      exists z; auto.
    - exists middle; auto. }
  simpl.
  assert (exists z, match rt with
                    | Some _ => Rope.concat fp rt
                    | None => Ok fp
                    end = Ok z
                    /\ onSome wf z
                    /\ Rope.toString_of z
                       = Rope.toString_of fp ++ Rope.toString_of rt)
    as (z & -> & Hz & Sz).
  { destruct rt as [rn |].
    - destruct (concat_ok fp (Some rn) Hfp Hr) as (z & -> & Hz & Sz & _).
      exists z; auto.
    - exists fp; conjs; auto.
      simpl; rewrite app_nil_r; reflexivity. }
  simpl.
  exists (Rope.mk z); conjs; auto.
  simpl; rewrite Sz, Sfp, Sl, Sm, Sr.
  rewrite take_take_drop by lia.
  replace (s + (e - s)) with e by lia.
  apply take_drop.
Qed.

Lemma rebalance_ok (r : Rope.t) :
  snd (Rope.rebalance r) = Ok tt
  /\ wfRope (fst (Rope.rebalance r))
  /\ Rope.toString (fst (Rope.rebalance r)) = Rope.toString r.
Proof.
  unfold Rope.rebalance; simpl.
  split; [reflexivity |].
  apply (createOptimalTree_ok (Rope.toString r)).
Qed.

Lemma charAt_state (r : Rope.t) (i : Z) : fst (Rope.charAt r i) = r.
Proof.
  unfold Rope.charAt.
  destruct (Rope.root r); [| reflexivity].
  destruct ((i <? 0) || (i >=? Rope.length r)); reflexivity.
Qed.

(** Every rope a client can hold is well formed. *)
Lemma reachable_wf (r : Rope.t) : reachable r -> wfRope r.
Proof.
  induction 1 as [s | r i text _ IH | r s e _ IH | r i _ IH | r s e _ IH | r _ IH].
  - apply new_ok.
  - destruct (Z_lt_ge_dec i 0) as [Hlt | Hge];
      [rewrite insert_throw by lia; assumption |].
    destruct (Z_gt_le_dec i (Rope.length r)) as [Hgt | Hle];
      [rewrite insert_throw by lia; assumption |].
    destruct (insert_ok r i text IH ltac:(lia)) as (r' & -> & Hr' & _).
    assumption.
  - destruct (Z.eq_dec s e) as [-> | Hne].
    { unfold Rope.delete; rewrite Z.eqb_refl; assumption. }
    destruct (Z_lt_ge_dec s 0) as [Hlt | Hge];
      [rewrite delete_throw by lia; assumption |].
    destruct (Z_gt_le_dec e (Rope.length r)) as [Hgt | Hle];
      [rewrite delete_throw by lia; assumption |].
    destruct (Z_gt_le_dec s e) as [Hgt' | Hle'];
      [rewrite delete_throw by lia; assumption |].
    destruct (delete_ok r s e IH ltac:(lia) ltac:(lia) ltac:(lia)) as (r' & -> & Hr' & _).
    assumption.
  - rewrite charAt_state; assumption.
  - destruct (Z_lt_ge_dec s 0) as [Hlt | Hge];
      [rewrite substring_throw by lia; assumption |].
    destruct (Z_gt_le_dec e (Rope.length r)) as [Hgt | Hle];
      [rewrite substring_throw by lia; assumption |].
    destruct (Z_gt_le_dec s e) as [Hgt' | Hle'];
      [rewrite substring_throw by lia; assumption |].
    destruct (substring_ok r s e IH ltac:(lia) ltac:(lia)) as (r' & -> & Hr' & _).
    assumption.
  - apply rebalance_ok.
Qed.

Lemma wf_weightsOk (n : RopeNode) : wf n -> weightsOk n.
Proof.
  induction n as [l r w v t h IHl IHr] using RopeNode_induction.
  destruct t; simpl.
  - intros (-> & -> & _); conjs; auto; discriminate.
  - destruct l as [a |]; [| contradiction].
    destruct r as [b |]; [| contradiction].
    simpl in IHl, IHr.
    intros (Ha & Hb & -> & _); conjs; auto.
    intros _; symmetry; apply (leafLengthSum_getNodeWeight (Some a)).
Qed.

(** The walk of [charAt] finds the code unit that the text has at the
    index. *)
Lemma charAt_walk_ok (n : RopeNode) :
  wf n -> forall i, 0 <= i < JS.len (Rope.toString_node n) ->
  exists c, JS.index (Rope.toString_node n) i = Some c
            /\ Rope.charAt_walk n i = Ok c.
Proof.
  induction n as [l r w v t h IHl IHr] using RopeNode_induction.
  intros Hwf i Hi.
  destruct t.
  - simpl in *.
    destruct (index_in_range v i Hi) as (c & E).
    exists [c]; rewrite E; auto.
  - destruct (wf_internal _ Hwf eq_refl) as (a & b & La & Rb & Ha & Hb & Hw & _).
    simpl in La, Rb, Hw; subst l r.
    rewrite getNodeWeight_toString in Hw.
    simpl in IHl, IHr, Hi |- *.
    rewrite len_app in Hi.
    destruct (Z.ltb_spec i w) as [Hlt | Hge].
    + destruct (IHl Ha i ltac:(lia)) as (c & E & W).
      exists c; split; [| assumption].
      rewrite index_app_l by lia; assumption.
    + destruct (IHr Hb (i - w) ltac:(lia)) as (c & E & W).
      exists c; split; [| assumption].
      rewrite index_app_r by lia; rewrite <- Hw; assumption.
Qed.

(** Whatever the tree looks like, the walk ends in one code unit or in an
    exception. *)
Lemma charAt_walk_single (n : RopeNode) :
  forall i c, Rope.charAt_walk n i = Ok c -> JS.len c = 1.
Proof.
  induction n as [l r w v t h IHl IHr] using RopeNode_induction.
  intros i c; destruct t; simpl.
  - destruct (JS.index v i) as [d |] eqn:E; [| discriminate].
    intros H; injection H as <-.
    exact (index_single v i d E).
  - destruct (i <? w).
    + destruct l as [a |]; [apply IHl | discriminate].
    + destruct r as [b |]; [apply IHr | discriminate].
Qed.

End RopeFacts.

(** * The properties of the specification *)

Section Properties.
Import JSFacts NodeFacts BuilderFacts RopeFacts RefString.

(** Edits with valid arguments keep the rope well formed and in step with
    the reference string. *)
Lemma runEdits_ok (es : list edit) :
  forall (r : Rope.t) (ref : JS.string),
    wfRope r -> Rope.toString r = ref -> validEdits ref es ->
    exists r', runEdits r es = Ok r' /\ wfRope r'
               /\ Rope.toString r' = fold_left splice es ref.
Proof.
  induction es as [| ed es IH]; intros r ref Hwf Hstr Hv.
  - exists r; auto.
  - destruct Hv as (Hv1 & Hv).
    assert (exists r1, applyEdit r ed = (r1, Ok tt) /\ wfRope r1
                       /\ Rope.toString r1 = splice ref ed)
      as (r1 & E & Hwf1 & Hstr1).
    { destruct ed as [i text | s e]; simpl in Hv1 |- *.
      - destruct (insert_ok r i text Hwf) as (r1 & E & Hwf1 & S1).
        { rewrite length_toString, Hstr; assumption. }
        exists r1; conjs; auto.
        rewrite S1, Hstr, slice_prefix, slice_suffix by lia; reflexivity.
      - destruct (Z.eq_dec s e) as [-> | Hne].
        + exists r; unfold Rope.delete; rewrite Z.eqb_refl; conjs; auto.
          rewrite slice_prefix, slice_suffix by lia.
          rewrite take_drop; assumption.
        + destruct (delete_ok r s e Hwf) as (r1 & E & Hwf1 & S1); try lia.
          { rewrite length_toString, Hstr; lia. }
          exists r1; conjs; auto.
          rewrite S1, Hstr, slice_prefix, slice_suffix by lia; reflexivity. }
    simpl; rewrite E.
    exact (IH r1 (splice ref ed) Hwf1 Hstr1 Hv).
Qed.

(** C1.  Round trip with a reference model: for any initial string and any
    sequence of [insert] and [delete] calls with valid arguments, every
    call returns and [toString()] of the resulting rope equals the
    reference string obtained by the equivalent splices. *)
Theorem edits_agree_with_reference (init : JS.string) (es : list edit) :
  validEdits init es ->
  exists r', runEdits (Rope.new init) es = Ok r'
             /\ Rope.toString r' = fold_left splice es init.
Proof.
  intros Hv.
  destruct (new_ok init) as (Hwf & Hstr).
  destruct (runEdits_ok es (Rope.new init) init Hwf Hstr Hv) as (r' & E & _ & S).
  exists r'; auto.
Qed.

Lemma edits_agree_with_reference_witness :
  validEdits (Samples.text "Hello, world!") Samples.helloEdits
  /\ exists r',
       runEdits (Rope.new (Samples.text "Hello, world!")) Samples.helloEdits = Ok r'
       /\ Rope.toString r'
          = fold_left splice Samples.helloEdits (Samples.text "Hello, world!").
Proof.
  assert (Hv : validEdits (Samples.text "Hello, world!") Samples.helloEdits)
    by (vm_compute; intuition discriminate).
  exact (conj Hv (edits_agree_with_reference _ _ Hv)).
Defined.

(** C2, at its failing input.  [new Rope("a".repeat(8192))] is a perfect
    tree of height 4 over eight leaves of 1024 code units, and balanced.
    [insert(8192, "x")] splits at the end, which rebuilds the same tree as
    the left part, and calls [concat(left, leaf "x")]: the new node has
    balance factor 4 - 1 = 3 and a left child with factor 0, so [balance]
    does one right rotation.  That leaves the old node over the 4096-unit
    subtree (height 3) and the leaf (height 1): the call returns normally,
    the right child of the root has balance factor 2, and [isBalanced()]
    answers false. *)
Theorem insert_at_end_breaks_balance :
  balanceFactorsOk_of (Rope.root Samples.eightLeaves) = true
  /\ Rope.isBalanced Samples.eightLeaves = true
  /\ snd Samples.eightLeavesInsert = Ok tt
  /\ Rope.getBalanceFactor
       (match Rope.root (fst Samples.eightLeavesInsert) with
        | Some n => right n
        | None => None
        end) = 2
  /\ balanceFactorsOk_of (Rope.root (fst Samples.eightLeavesInsert)) = false
  /\ Rope.isBalanced (fst Samples.eightLeavesInsert) = false.
Proof. vm_compute; auto 10. Qed.

(** C3.  On every rope a client can hold and for [0 <= s <= e <= length()],
    [substring(s, e)] returns [toString().slice(s, e)] and leaves
    [toString()] as it was. *)
Theorem substring_agrees_with_slice (r : Rope.t) (s e : Z) :
  reachable r -> 0 <= s <= e -> e <= Rope.length r ->
  snd (Rope.substring r s e) = Ok (JS.slice (Rope.toString r) s e)
  /\ Rope.toString (fst (Rope.substring r s e)) = Rope.toString r.
Proof.
  intros Hr Hs He.
  destruct (substring_ok r s e (reachable_wf r Hr) Hs He) as (r' & -> & _ & S).
  simpl; split; [| assumption].
  rewrite slice_valid; [reflexivity | lia |].
  rewrite <- length_toString; assumption.
Qed.

Lemma substring_agrees_with_slice_witness :
  reachable Samples.hello /\ 0 <= 5 <= 11 /\ 11 <= Rope.length Samples.hello
  /\ snd (Rope.substring Samples.hello 5 11)
     = Ok (JS.slice (Rope.toString Samples.hello) 5 11)
  /\ Rope.toString (fst (Rope.substring Samples.hello 5 11))
     = Rope.toString Samples.hello.
Proof.
  assert (H1 : reachable Samples.hello) by apply reach_new.
  assert (H2 : 0 <= 5 <= 11) by lia.
  assert (H3 : 11 <= Rope.length Samples.hello) by (vm_compute; discriminate).
  exact (conj H1 (conj H2 (conj H3
           (substring_agrees_with_slice Samples.hello 5 11 H1 H2 H3)))).
Defined.

(** C4.  [delete(k, k)] returns normally and leaves the rope as it is, for
    every rope and every integer [k], in range or not. *)
Theorem delete_equal_bounds_noop (r : Rope.t) (k : Z) :
  Rope.delete r k k = (r, Ok tt).
Proof. unfold Rope.delete; rewrite Z.eqb_refl; reflexivity. Qed.

(** C5.  On every rope a client can hold, [insert(index, text)] throws
    "Index out of bounds" exactly when [index < 0] or [index > length()];
    [delete(start, end)] with [start <> end] throws "Invalid range" exactly
    when [start < 0], [end > length()] or [start > end]; and a call that
    throws leaves the rope unchanged. *)
Theorem insert_delete_validation (r : Rope.t) :
  reachable r ->
  (forall i text,
      (snd (Rope.insert r i text) = Throw IndexOutOfBounds
       <-> i < 0 \/ i > Rope.length r)
      /\ (forall x, snd (Rope.insert r i text) = Throw x ->
                    x = IndexOutOfBounds /\ fst (Rope.insert r i text) = r))
  /\ (forall s e, s <> e ->
      (snd (Rope.delete r s e) = Throw InvalidRange
       <-> s < 0 \/ e > Rope.length r \/ s > e)
      /\ (forall x, snd (Rope.delete r s e) = Throw x ->
                    x = InvalidRange /\ fst (Rope.delete r s e) = r)).
Proof.
  intros Hr; pose proof (reachable_wf r Hr) as Hwf.
  split.
  - intros i text.
    destruct (Z_lt_ge_dec i 0) as [Hlt | Hge].
    { rewrite insert_throw by lia; simpl; split; [tauto |].
      intros x E; injection E as <-; auto. }
    destruct (Z_gt_le_dec i (Rope.length r)) as [Hgt | Hle].
    { rewrite insert_throw by lia; simpl; split; [tauto |].
      intros x E; injection E as <-; auto. }
    destruct (insert_ok r i text Hwf ltac:(lia)) as (r' & -> & _).
    simpl; split; [split; [discriminate | lia] | discriminate].
  - intros s e Hne.
    destruct (Z_lt_ge_dec s 0) as [Hlt | Hge].
    { rewrite delete_throw by lia; simpl; split; [tauto |].
      intros x E; injection E as <-; auto. }
    destruct (Z_gt_le_dec e (Rope.length r)) as [Hgt | Hle].
    { rewrite delete_throw by lia; simpl; split; [tauto |].
      intros x E; injection E as <-; auto. }
    destruct (Z_gt_le_dec s e) as [Hgt' | Hle'].
    { rewrite delete_throw by lia; simpl; split; [tauto |].
      intros x E; injection E as <-; auto. }
    destruct (delete_ok r s e Hwf ltac:(lia) ltac:(lia) ltac:(lia)) as (r' & -> & _).
    simpl; split; [split; [discriminate | lia] | discriminate].
Qed.

Lemma insert_delete_validation_witness :
  reachable Samples.hello
  /\ (forall i text,
         (snd (Rope.insert Samples.hello i text) = Throw IndexOutOfBounds
          <-> i < 0 \/ i > Rope.length Samples.hello)
         /\ (forall x, snd (Rope.insert Samples.hello i text) = Throw x ->
               x = IndexOutOfBounds
               /\ fst (Rope.insert Samples.hello i text) = Samples.hello))
  /\ (forall s e, s <> e ->
         (snd (Rope.delete Samples.hello s e) = Throw InvalidRange
          <-> s < 0 \/ e > Rope.length Samples.hello \/ s > e)
         /\ (forall x, snd (Rope.delete Samples.hello s e) = Throw x ->
               x = InvalidRange
               /\ fst (Rope.delete Samples.hello s e) = Samples.hello)).
Proof.
  assert (H : reachable Samples.hello) by apply reach_new.
  exact (conj H (insert_delete_validation Samples.hello H)).
Defined.

(** C6.  On every rope a client can hold and for [0 <= i < length()],
    [charAt(i)] returns the one-unit string [toString()[i]]. *)
Theorem charAt_agrees_with_toString (r : Rope.t) (i : Z) :
  reachable r -> 0 <= i < Rope.length r ->
  exists c, JS.index (Rope.toString r) i = Some c
            /\ JS.len c = 1
            /\ Rope.charAt r i = (r, Ok c).
Proof.
  intros Hr Hi; pose proof (reachable_wf r Hr) as Hwf.
  unfold Rope.charAt.
  destruct (Z.ltb_spec i 0); [lia |].
  destruct (Z.geb_spec i (Rope.length r)); [lia |].
  rewrite length_toString in Hi.
  destruct r as [[n |]]; unfold wfRope, Rope.toString in *; simpl in *;
    [| unfold JS.len in Hi; simpl in Hi; lia].
  destruct (charAt_walk_ok n Hwf i Hi) as (c & E & W).
  exists c; conjs; auto.
  - exact (index_single _ _ _ E).
  - rewrite W; reflexivity.
Qed.

Lemma charAt_agrees_with_toString_witness :
  reachable Samples.hello /\ 0 <= 7 < Rope.length Samples.hello
  /\ exists c, JS.index (Rope.toString Samples.hello) 7 = Some c
               /\ JS.len c = 1
               /\ Rope.charAt Samples.hello 7 = (Samples.hello, Ok c).
Proof.
  assert (H1 : reachable Samples.hello) by apply reach_new.
  assert (H2 : 0 <= 7 < Rope.length Samples.hello)
    by (vm_compute; intuition discriminate).
  exact (conj H1 (conj H2 (charAt_agrees_with_toString Samples.hello 7 H1 H2))).
Defined.

(** C7.  In every rope a client can hold, that is after every public
    operation, each internal node caches as [weight] the sum of the lengths
    of the leaf values of its left subtree. *)
Theorem weights_cached_correctly (r : Rope.t) :
  reachable r -> onSome weightsOk (Rope.root r).
Proof.
  intros Hr; pose proof (reachable_wf r Hr) as Hwf.
  unfold wfRope in Hwf.
  destruct (Rope.root r) as [n |]; simpl in *; [| exact I].
  apply wf_weightsOk; assumption.
Qed.

Lemma weights_cached_correctly_witness :
  reachable (fst Samples.eightLeavesInsert)
  /\ onSome weightsOk (Rope.root (fst Samples.eightLeavesInsert)).
Proof.
  assert (H : reachable (fst Samples.eightLeavesInsert))
    by (apply reach_insert, reach_new).
  exact (conj H (weights_cached_correctly _ H)).
Defined.

(** C8.  After [rebalance()], on any rope, [isBalanced()] is true and
    [toString()] is what it was. *)
Theorem rebalance_balanced_same_text (r : Rope.t) :
  snd (Rope.rebalance r) = Ok tt
  /\ Rope.isBalanced (fst (Rope.rebalance r)) = true
  /\ Rope.toString (fst (Rope.rebalance r)) = Rope.toString r.
Proof.
  destruct (rebalance_ok r) as (E & _ & S).
  conjs; auto.
  unfold Rope.isBalanced, Rope.rebalance, Rope.createOptimalTree; simpl.
  rewrite checkBalance_createOptimalTree_fuel.
  pose proof (shapeHeight_pos (Z.to_nat (JS.len (Rope.toString r) - 0))
                (JS.len (Rope.toString r) - 0)).
  destruct (Z.eqb_spec (shapeHeight (Z.to_nat (JS.len (Rope.toString r) - 0))
                          (JS.len (Rope.toString r) - 0)) (-1));
    [lia | reflexivity].
Qed.

(** C9.  On every rope a client can hold, the empty one included, and for
    [0 <= i <= length()], [insert(i, "")] returns normally and leaves
    [toString()] and [length()] as they were. *)
Theorem insert_empty_text_noop (r : Rope.t) (i : Z) :
  reachable r -> 0 <= i <= Rope.length r ->
  snd (Rope.insert r i []) = Ok tt
  /\ Rope.toString (fst (Rope.insert r i [])) = Rope.toString r
  /\ Rope.length (fst (Rope.insert r i [])) = Rope.length r.
Proof.
  intros Hr Hi.
  destruct (insert_ok r i [] (reachable_wf r Hr) Hi) as (r' & -> & _ & S).
  simpl in S |- *; rewrite take_drop in S.
  conjs; auto.
  rewrite !length_toString, S; reflexivity.
Qed.

Lemma insert_empty_text_noop_witness :
  reachable Samples.empty /\ 0 <= 0 <= Rope.length Samples.empty
  /\ snd (Rope.insert Samples.empty 0 []) = Ok tt
  /\ Rope.toString (fst (Rope.insert Samples.empty 0 []))
     = Rope.toString Samples.empty
  /\ Rope.length (fst (Rope.insert Samples.empty 0 []))
     = Rope.length Samples.empty.
Proof.
  assert (H1 : reachable Samples.empty) by apply reach_new.
  assert (H2 : 0 <= 0 <= Rope.length Samples.empty)
    by (vm_compute; intuition discriminate).
  exact (conj H1 (conj H2 (insert_empty_text_noop Samples.empty 0 H1 H2))).
Defined.

(** C10.  For any rope, whatever its tree, and any integer index,
    [charAt(index)] returns a string of exactly one code unit or throws;
    at the leaf that ends the walk, a missing code unit ([undefined]) is
    turned into "Index out of bounds". *)
Theorem charAt_single_or_throws (r : Rope.t) (i : Z) :
  ((exists c, snd (Rope.charAt r i) = Ok c /\ JS.len c = 1)
   \/ (exists x, snd (Rope.charAt r i) = Throw x))
  /\ (forall l rt w v h j,
         Rope.charAt_walk (mkRopeNode l rt w v LEAF h) j
         = match JS.index v j with
           | Some c => Ok c
           | None => Throw IndexOutOfBounds
           end).
Proof.
  split; [| reflexivity].
  destruct (snd (Rope.charAt r i)) as [c | x] eqn:E; [left | right; eauto].
  exists c; split; [reflexivity |].
  unfold Rope.charAt in E.
  destruct (Rope.root r) as [n |]; [| discriminate].
  destruct ((i <? 0) || (i >=? Rope.length r)); [discriminate |].
  exact (charAt_walk_single n i c E).
Qed.

End Properties.

(** * Further properties of the code *)

Section MoreProperties.
Import JSFacts NodeFacts BuilderFacts RopeFacts RefString.

(** [length()] is the number of code units of [toString()], on any tree. *)
Theorem length_is_text_length (r : Rope.t) :
  Rope.length r = JS.len (Rope.toString r).
Proof. apply length_toString. Qed.

(** The constructor stores its argument: [new Rope(s)] spells [s], has the
    length of [s], is height balanced, and has no root exactly when [s] is
    empty. *)
Theorem constructor_round_trip (s : JS.string) :
  Rope.toString (Rope.new s) = s
  /\ Rope.length (Rope.new s) = JS.len s
  /\ Rope.isBalanced (Rope.new s) = true
  /\ (Rope.root (Rope.new s) = None <-> s = []).
Proof.
  destruct (new_ok s) as (_ & S).
  conjs; [exact S | rewrite length_toString, S; reflexivity | |].
  - unfold Rope.new; destruct s as [| c s]; simpl; [reflexivity |].
    unfold Rope.isBalanced, Rope.createOptimalTree; simpl Rope.root; simpl Rope.checkBalance.
    rewrite checkBalance_createOptimalTree_fuel.
    match goal with |- context [shapeHeight ?f ?n] =>
      pose proof (shapeHeight_pos f n);
      destruct (Z.eqb_spec (shapeHeight f n) (-1)); [lia | reflexivity]
    end.
  - split; [| intros ->; reflexivity].
    destruct s; [reflexivity | discriminate].
Qed.

(** [insert(0, text)] prepends and [insert(length(), text)] appends. *)
Theorem insert_prepends_and_appends (r : Rope.t) (text : JS.string) :
  reachable r ->
  (snd (Rope.insert r 0 text) = Ok tt
   /\ Rope.toString (fst (Rope.insert r 0 text)) = text ++ Rope.toString r)
  /\ (snd (Rope.insert r (Rope.length r) text) = Ok tt
      /\ Rope.toString (fst (Rope.insert r (Rope.length r) text))
         = Rope.toString r ++ text).
Proof.
  intros Hr; pose proof (reachable_wf r Hr) as Hwf.
  pose proof (len_nonneg (Rope.toString r)) as Hn.
  rewrite <- length_toString in Hn.
  split.
  - destruct (insert_ok r 0 text Hwf ltac:(lia)) as (r' & -> & _ & S).
    simpl; split; [reflexivity |].
    rewrite S, take_0, drop_0; reflexivity.
  - destruct (insert_ok r (Rope.length r) text Hwf ltac:(lia)) as (r' & -> & _ & S).
    simpl; split; [reflexivity |].
    rewrite S, take_all, drop_all, app_nil_r by (rewrite length_toString; lia).
    reflexivity.
Qed.

Lemma insert_prepends_and_appends_witness :
  reachable Samples.hello
  /\ (snd (Rope.insert Samples.hello 0 (Samples.text "> ")) = Ok tt
      /\ Rope.toString (fst (Rope.insert Samples.hello 0 (Samples.text "> ")))
         = Samples.text "> " ++ Rope.toString Samples.hello)
  /\ (snd (Rope.insert Samples.hello (Rope.length Samples.hello) (Samples.text "> "))
      = Ok tt
      /\ Rope.toString
           (fst (Rope.insert Samples.hello (Rope.length Samples.hello)
                   (Samples.text "> ")))
         = Rope.toString Samples.hello ++ Samples.text "> ").
Proof.
  assert (H : reachable Samples.hello) by apply reach_new.
  exact (conj H (insert_prepends_and_appends Samples.hello (Samples.text "> ") H)).
Defined.

(** A valid [insert] makes the rope longer by the length of the text. *)
Theorem insert_adds_length (r : Rope.t) (i : Z) (text : JS.string) :
  reachable r -> 0 <= i <= Rope.length r ->
  Rope.length (fst (Rope.insert r i text)) = Rope.length r + JS.len text.
Proof.
  intros Hr Hi.
  destruct (insert_ok r i text (reachable_wf r Hr) Hi) as (r' & -> & _ & S).
  simpl; rewrite !length_toString, S, !len_app.
  rewrite length_toString in Hi.
  rewrite len_take, len_drop by lia; lia.
Qed.

Lemma insert_adds_length_witness :
  reachable Samples.hello /\ 0 <= 5 <= Rope.length Samples.hello
  /\ Rope.length (fst (Rope.insert Samples.hello 5 (Samples.text " beautiful")))
     = Rope.length Samples.hello + JS.len (Samples.text " beautiful").
Proof.
  assert (H1 : reachable Samples.hello) by apply reach_new.
  assert (H2 : 0 <= 5 <= Rope.length Samples.hello)
    by (vm_compute; intuition discriminate).
  exact (conj H1 (conj H2 (insert_adds_length Samples.hello 5 _ H1 H2))).
Defined.

(** A valid [delete(s, e)] returns, removes exactly the code units from [s]
    up to [e], and makes the rope shorter by [e - s]. *)
Theorem delete_removes_range (r : Rope.t) (s e : Z) :
  reachable r -> 0 <= s <= e -> e <= Rope.length r ->
  snd (Rope.delete r s e) = Ok tt
  /\ Rope.toString (fst (Rope.delete r s e))
     = JS.slice (Rope.toString r) 0 s
       ++ JS.slice (Rope.toString r) e (JS.len (Rope.toString r))
  /\ Rope.length (fst (Rope.delete r s e)) = Rope.length r - (e - s).
Proof.
  intros Hr Hs He; pose proof (reachable_wf r Hr) as Hwf.
  pose proof He as He'; rewrite length_toString in He'.
  rewrite slice_prefix, slice_suffix by lia.
  destruct (Z.eq_dec s e) as [-> | Hne].
  - unfold Rope.delete; rewrite Z.eqb_refl; simpl.
    rewrite take_drop; conjs; auto; lia.
  - destruct (delete_ok r s e Hwf ltac:(lia) ltac:(lia) He) as (r' & -> & _ & S).
    simpl; conjs; auto.
    rewrite !length_toString, S, len_app, len_take, len_drop by lia; lia.
Qed.

Lemma delete_removes_range_witness :
  reachable Samples.hello /\ 0 <= 5 <= 7 /\ 7 <= Rope.length Samples.hello
  /\ snd (Rope.delete Samples.hello 5 7) = Ok tt
  /\ Rope.toString (fst (Rope.delete Samples.hello 5 7))
     = JS.slice (Rope.toString Samples.hello) 0 5
       ++ JS.slice (Rope.toString Samples.hello) 7
            (JS.len (Rope.toString Samples.hello))
  /\ Rope.length (fst (Rope.delete Samples.hello 5 7))
     = Rope.length Samples.hello - (7 - 5).
Proof.
  assert (H1 : reachable Samples.hello) by apply reach_new.
  assert (H2 : 0 <= 5 <= 7) by lia.
  assert (H3 : 7 <= Rope.length Samples.hello) by (vm_compute; discriminate).
  exact (conj H1 (conj H2 (conj H3 (delete_removes_range Samples.hello 5 7 H1 H2 H3)))).
Defined.

(** Deleting what was just inserted gives the text back: after
    [insert(i, text)], [delete(i, i + text.length)] returns and restores
    [toString()]. *)
Theorem insert_then_delete_restores (r : Rope.t) (i : Z) (text : JS.string) :
  reachable r -> 0 <= i <= Rope.length r ->
  snd (Rope.insert r i text) = Ok tt
  /\ snd (Rope.delete (fst (Rope.insert r i text)) i (i + JS.len text)) = Ok tt
  /\ Rope.toString
       (fst (Rope.delete (fst (Rope.insert r i text)) i (i + JS.len text)))
     = Rope.toString r.
Proof.
  intros Hr Hi; pose proof (reachable_wf r Hr) as Hwf.
  destruct (insert_ok r i text Hwf Hi) as (r1 & E & Hwf1 & S1).
  rewrite E; simpl; split; [reflexivity |].
  rewrite length_toString in Hi.
  pose proof (len_nonneg text) as Ht.
  destruct (Z.eq_dec (JS.len text) 0) as [Z0 | Nz].
  - rewrite Z0, Z.add_0_r.
    unfold Rope.delete; rewrite Z.eqb_refl; simpl; split; [reflexivity |].
    destruct text; [| unfold JS.len in Z0; simpl in Z0; lia].
    rewrite S1; apply take_drop.
  - assert (L1 : Rope.length r1 = JS.len (Rope.toString r) + JS.len text).
    { rewrite length_toString, S1, !len_app, len_take, len_drop by lia; lia. }
    destruct (delete_ok r1 i (i + JS.len text) Hwf1 ltac:(lia) ltac:(lia) ltac:(lia))
      as (r2 & -> & _ & S2).
    simpl; split; [reflexivity |].
    rewrite S2, S1.
    rewrite take_app_l by (rewrite len_take; lia).
    rewrite (take_all i (take i (Rope.toString r))) by (rewrite len_take; lia).
    rewrite drop_app_r by (rewrite len_take; lia).
    rewrite len_take by lia.
    rewrite drop_app_r by lia.
    replace (i + JS.len text - i - JS.len text) with 0 by lia.
    rewrite drop_0; apply take_drop.
Qed.

Lemma insert_then_delete_restores_witness :
  reachable Samples.hello /\ 0 <= 5 <= Rope.length Samples.hello
  /\ snd (Rope.insert Samples.hello 5 (Samples.text " beautiful")) = Ok tt
  /\ snd (Rope.delete (fst (Rope.insert Samples.hello 5 (Samples.text " beautiful")))
            5 (5 + JS.len (Samples.text " beautiful"))) = Ok tt
  /\ Rope.toString
       (fst (Rope.delete (fst (Rope.insert Samples.hello 5 (Samples.text " beautiful")))
               5 (5 + JS.len (Samples.text " beautiful"))))
     = Rope.toString Samples.hello.
Proof.
  assert (H1 : reachable Samples.hello) by apply reach_new.
  assert (H2 : 0 <= 5 <= Rope.length Samples.hello)
    by (vm_compute; intuition discriminate).
  exact (conj H1 (conj H2 (insert_then_delete_restores Samples.hello 5 _ H1 H2))).
Defined.

(** *** Validation of the queries *)

Lemma charAt_in_range (r : Rope.t) (i : Z) :
  wfRope r -> 0 <= i < Rope.length r ->
  exists c, Rope.charAt r i = (r, Ok c).
Proof.
  intros Hwf Hi; unfold Rope.charAt.
  destruct (Z.ltb_spec i 0); [lia |].
  destruct (Z.geb_spec i (Rope.length r)); [lia |].
  rewrite length_toString in Hi.
  destruct r as [[root |]]; unfold wfRope, Rope.toString in *; simpl in *;
    [| unfold JS.len in Hi; simpl in Hi; lia].
  destruct (charAt_walk_ok root Hwf i Hi) as (c & _ & ->).
  exists c; reflexivity.
Qed.

Lemma charAt_out_of_range (r : Rope.t) (i : Z) :
  i < 0 \/ i >= Rope.length r ->
  Rope.charAt r i = (r, Throw IndexOutOfBounds).
Proof.
  intros H; unfold Rope.charAt.
  destruct (Rope.root r); [| reflexivity].
  destruct (Z.ltb_spec i 0); [reflexivity |].
  destruct (Z.geb_spec i (Rope.length r)); [reflexivity | lia].
Qed.

(** On every rope a client can hold, [charAt(i)] throws exactly when [i < 0]
    or [i >= length()], the exception is always "Index out of bounds" (never
    "Invalid rope structure"), and the rope is left as it is. *)
Theorem charAt_validation (r : Rope.t) (i : Z) :
  reachable r ->
  (snd (Rope.charAt r i) = Throw IndexOutOfBounds <-> i < 0 \/ i >= Rope.length r)
  /\ (forall x, snd (Rope.charAt r i) = Throw x -> x = IndexOutOfBounds)
  /\ fst (Rope.charAt r i) = r.
Proof.
  intros Hr; pose proof (reachable_wf r Hr) as Hwf.
  split; [| split; [| apply charAt_state]].
  - split; [| intros H; rewrite charAt_out_of_range by assumption; reflexivity].
    intros E.
    destruct (Z_lt_ge_dec i 0); [lia |].
    destruct (Z_lt_ge_dec i (Rope.length r)); [| lia].
    destruct (charAt_in_range r i Hwf ltac:(lia)) as (c & E').
    rewrite E' in E; discriminate.
  - intros x E.
    destruct (Z_lt_ge_dec i 0);
      [rewrite charAt_out_of_range in E by lia; injection E as <-; reflexivity |].
    destruct (Z_lt_ge_dec i (Rope.length r));
      [| rewrite charAt_out_of_range in E by lia; injection E as <-; reflexivity].
    destruct (charAt_in_range r i Hwf ltac:(lia)) as (c & E').
    rewrite E' in E; discriminate.
Qed.

Lemma charAt_validation_witness :
  reachable Samples.hello
  /\ (snd (Rope.charAt Samples.hello 13) = Throw IndexOutOfBounds
      <-> 13 < 0 \/ 13 >= Rope.length Samples.hello)
  /\ (forall x, snd (Rope.charAt Samples.hello 13) = Throw x -> x = IndexOutOfBounds)
  /\ fst (Rope.charAt Samples.hello 13) = Samples.hello.
Proof.
  assert (H : reachable Samples.hello) by apply reach_new.
  exact (conj H (charAt_validation Samples.hello 13 H)).
Defined.

(** On every rope a client can hold, [substring(s, e)] throws exactly when
    [s < 0], [e > length()] or [s > e]; the exception is "Invalid range" and
    the rope is then unchanged. *)
Theorem substring_validation (r : Rope.t) (s e : Z) :
  reachable r ->
  (snd (Rope.substring r s e) = Throw InvalidRange
   <-> s < 0 \/ e > Rope.length r \/ s > e)
  /\ (forall x, snd (Rope.substring r s e) = Throw x ->
                x = InvalidRange /\ fst (Rope.substring r s e) = r).
Proof.
  intros Hr; pose proof (reachable_wf r Hr) as Hwf.
  destruct (Z_lt_ge_dec s 0) as [Hlt | Hge].
  { rewrite substring_throw by lia; simpl; split; [tauto |].
    intros x E; injection E as <-; auto. }
  destruct (Z_gt_le_dec e (Rope.length r)) as [Hgt | Hle].
  { rewrite substring_throw by lia; simpl; split; [tauto |].
    intros x E; injection E as <-; auto. }
  destruct (Z_gt_le_dec s e) as [Hgt' | Hle'].
  { rewrite substring_throw by lia; simpl; split; [tauto |].
    intros x E; injection E as <-; auto. }
  destruct (substring_ok r s e Hwf ltac:(lia) ltac:(lia)) as (r' & -> & _).
  simpl; split; [split; [discriminate | lia] | discriminate].
Qed.

Lemma substring_validation_witness :
  reachable Samples.hello
  /\ (snd (Rope.substring Samples.hello 5 14) = Throw InvalidRange
      <-> 5 < 0 \/ 14 > Rope.length Samples.hello \/ 5 > 14)
  /\ (forall x, snd (Rope.substring Samples.hello 5 14) = Throw x ->
        x = InvalidRange /\ fst (Rope.substring Samples.hello 5 14) = Samples.hello).
Proof.
  assert (H : reachable Samples.hello) by apply reach_new.
  exact (conj H (substring_validation Samples.hello 5 14 H)).
Defined.

(** The queries and [rebalance] never change the text: on every rope a
    client can hold and for any arguments, valid or not, [toString()] and
    [length()] are the same after [charAt], [substring] and [rebalance]. *)
Theorem queries_preserve_text (r : Rope.t) :
  reachable r ->
  (forall i, Rope.toString (fst (Rope.charAt r i)) = Rope.toString r
             /\ Rope.length (fst (Rope.charAt r i)) = Rope.length r)
  /\ (forall s e, Rope.toString (fst (Rope.substring r s e)) = Rope.toString r
                  /\ Rope.length (fst (Rope.substring r s e)) = Rope.length r)
  /\ (Rope.toString (fst (Rope.rebalance r)) = Rope.toString r
      /\ Rope.length (fst (Rope.rebalance r)) = Rope.length r).
Proof.
  intros Hr; pose proof (reachable_wf r Hr) as Hwf.
  conjs.
  - intros i; rewrite charAt_state; auto.
  - intros s e.
    assert (S : Rope.toString (fst (Rope.substring r s e)) = Rope.toString r).
    { destruct (Z_lt_ge_dec s 0); [rewrite substring_throw by lia; reflexivity |].
      destruct (Z_gt_le_dec e (Rope.length r));
        [rewrite substring_throw by lia; reflexivity |].
      destruct (Z_gt_le_dec s e); [rewrite substring_throw by lia; reflexivity |].
      destruct (substring_ok r s e Hwf ltac:(lia) ltac:(lia)) as (r' & -> & _ & S).
      exact S. }
    split; [exact S | rewrite !length_toString, S; reflexivity].
  - apply rebalance_ok.
  - rewrite !length_toString.
    destruct (rebalance_ok r) as (_ & _ & ->); reflexivity.
Qed.

Lemma queries_preserve_text_witness :
  reachable Samples.hello
  /\ (forall i, Rope.toString (fst (Rope.charAt Samples.hello i))
                = Rope.toString Samples.hello
                /\ Rope.length (fst (Rope.charAt Samples.hello i))
                   = Rope.length Samples.hello)
  /\ (forall s e, Rope.toString (fst (Rope.substring Samples.hello s e))
                  = Rope.toString Samples.hello
                  /\ Rope.length (fst (Rope.substring Samples.hello s e))
                     = Rope.length Samples.hello)
  /\ (Rope.toString (fst (Rope.rebalance Samples.hello)) = Rope.toString Samples.hello
      /\ Rope.length (fst (Rope.rebalance Samples.hello)) = Rope.length Samples.hello).
Proof.
  assert (H : reachable Samples.hello) by apply reach_new.
  exact (conj H (queries_preserve_text Samples.hello H)).
Defined.

(** *** The empty rope *)

(** A rope without a root has length 0 and empty text and is balanced;
    every [charAt] throws; [insert] accepts index 0 only and then stores the
    text, whatever its length, as a single leaf; every [delete] with
    different bounds throws; [substring] accepts [(0, 0)] only. *)
Theorem empty_rope_behaviour (r : Rope.t) :
  Rope.root r = None ->
  Rope.length r = 0 /\ Rope.toString r = [] /\ Rope.isBalanced r = true
  /\ (forall i, Rope.charAt r i = (r, Throw IndexOutOfBounds))
  /\ (forall text,
         Rope.insert r 0 text = (Rope.mk (Some (new_RopeNode text)), Ok tt))
  /\ (forall i text, i <> 0 -> Rope.insert r i text = (r, Throw IndexOutOfBounds))
  /\ (forall s e, s <> e -> Rope.delete r s e = (r, Throw InvalidRange))
  /\ (forall s e,
         Rope.substring r s e
         = (r, if (s =? 0) && (e =? 0) then Ok [] else Throw InvalidRange)).
Proof.
  destruct r as [root]; simpl; intros ->.
  assert (L : Rope.length (Rope.mk None) = 0) by reflexivity.
  conjs; try reflexivity.
  - intros i text Hi; apply insert_throw; rewrite L; lia.
  - intros s e Hne; apply delete_throw; [assumption | rewrite L; lia].
  - intros s e.
    destruct (Z.eqb_spec s 0) as [-> | Hs]; simpl.
    + destruct (Z.eqb_spec e 0) as [-> | He]; [reflexivity |].
      apply substring_throw; rewrite L; lia.
    + destruct (Z.eq_dec s e) as [<- | Hne];
        apply substring_throw; rewrite L; lia.
Qed.

Lemma empty_rope_behaviour_witness :
  Rope.root Samples.empty = None
  /\ Rope.length Samples.empty = 0 /\ Rope.toString Samples.empty = []
  /\ Rope.isBalanced Samples.empty = true
  /\ (forall i, Rope.charAt Samples.empty i = (Samples.empty, Throw IndexOutOfBounds))
  /\ (forall text,
         Rope.insert Samples.empty 0 text
         = (Rope.mk (Some (new_RopeNode text)), Ok tt))
  /\ (forall i text, i <> 0 ->
         Rope.insert Samples.empty i text = (Samples.empty, Throw IndexOutOfBounds))
  /\ (forall s e, s <> e ->
         Rope.delete Samples.empty s e = (Samples.empty, Throw InvalidRange))
  /\ (forall s e,
         Rope.substring Samples.empty s e
         = (Samples.empty,
            if (s =? 0) && (e =? 0) then Ok [] else Throw InvalidRange)).
Proof.
  assert (H : Rope.root Samples.empty = None) by reflexivity.
  exact (conj H (empty_rope_behaviour Samples.empty H)).
Defined.

(** *** Rebalancing is rebuilding *)

(** A second [rebalance()] changes nothing: the tree is the same, node for
    node. *)
Theorem rebalance_idempotent (r : Rope.t) :
  fst (Rope.rebalance (fst (Rope.rebalance r))) = fst (Rope.rebalance r).
Proof.
  destruct (createOptimalTree_ok (Rope.toString r)) as (_ & S).
  assert (S' : Rope.toString
                 (Rope.mk (Some (Rope.createOptimalTree (Rope.toString r) 0
                                   (JS.len (Rope.toString r)))))
               = Rope.toString r) by exact S.
  unfold Rope.rebalance; simpl fst.
  rewrite S'; reflexivity.
Qed.

(** *** Structure and cached heights *)

Lemma wf_heightsOk (n : RopeNode) : wf n -> heightsOk n.
Proof.
  induction n as [l r w v t h IHl IHr] using RopeNode_induction.
  destruct t; simpl.
  - intros (-> & -> & _ & ->); simpl; auto.
  - destruct l as [a |]; [| contradiction].
    destruct r as [b |]; [| contradiction].
    simpl in IHl, IHr |- *.
    intros (Ha & Hb & _ & ->); auto.
Qed.

Lemma wf_childrenOk (n : RopeNode) : wf n -> childrenOk n.
Proof.
  induction n as [l r w v t h IHl IHr] using RopeNode_induction.
  destruct t; simpl.
  - intros (-> & -> & _); auto.
  - destruct l as [a |]; [| contradiction].
    destruct r as [b |]; [| contradiction].
    simpl in IHl, IHr.
    intros (Ha & Hb & _); auto.
Qed.

(** In every rope a client can hold, each node caches as [height] one more
    than the larger cached height of its children (0 for an absent child),
    so a leaf has height 1. *)
Theorem heights_cached_correctly (r : Rope.t) :
  reachable r -> onSome heightsOk (Rope.root r).
Proof.
  intros Hr; pose proof (reachable_wf r Hr) as Hwf.
  unfold wfRope in Hwf.
  destruct (Rope.root r) as [n |]; simpl in *; [| exact I].
  apply wf_heightsOk; assumption.
Qed.

Lemma heights_cached_correctly_witness :
  reachable (fst Samples.eightLeavesInsert)
  /\ onSome heightsOk (Rope.root (fst Samples.eightLeavesInsert)).
Proof.
  assert (H : reachable (fst Samples.eightLeavesInsert))
    by (apply reach_insert, reach_new).
  exact (conj H (heights_cached_correctly _ H)).
Defined.

(** In every rope a client can hold, an internal node has both children and
    a leaf has none. *)
Theorem internal_nodes_have_two_children (r : Rope.t) :
  reachable r -> onSome childrenOk (Rope.root r).
Proof.
  intros Hr; pose proof (reachable_wf r Hr) as Hwf.
  unfold wfRope in Hwf.
  destruct (Rope.root r) as [n |]; simpl in *; [| exact I].
  apply wf_childrenOk; assumption.
Qed.

Lemma internal_nodes_have_two_children_witness :
  reachable (fst Samples.eightLeavesInsert)
  /\ onSome childrenOk (Rope.root (fst Samples.eightLeavesInsert)).
Proof.
  assert (H : reachable (fst Samples.eightLeavesInsert))
    by (apply reach_insert, reach_new).
  exact (conj H (internal_nodes_have_two_children _ H)).
Defined.

(** *** What [isBalanced] decides *)

Lemma trueHeight_pos (n : RopeNode) : 1 <= trueHeight n.
Proof.
  induction n as [l r w v t h IHl IHr] using RopeNode_induction.
  simpl; destruct l, r; simpl in *; lia.
Qed.

Lemma trueHeightOf_nonneg (o : option RopeNode) : 0 <= trueHeightOf o.
Proof. destruct o as [n |]; simpl; [pose proof (trueHeight_pos n) |]; lia. Qed.

Lemma checkBalance_node_eq (n : RopeNode) :
  Rope.checkBalance_node n =
    let leftHeight := Rope.checkBalance (left n) in
    if leftHeight =? -1 then -1
    else
      let rightHeight := Rope.checkBalance (right n) in
      if rightHeight =? -1 then -1
      else if Z.abs (leftHeight - rightHeight) >? 1 then -1
      else Z.max leftHeight rightHeight + 1.
Proof. destruct n as [l r w v t h]; destruct l, r; reflexivity. Qed.

Lemma heightBalanced_eq (n : RopeNode) :
  heightBalanced n
  <-> Z.abs (trueHeightOf (left n) - trueHeightOf (right n)) <= 1
      /\ onSome heightBalanced (left n) /\ onSome heightBalanced (right n).
Proof. destruct n as [l r w v t h]; destruct l, r; simpl; tauto. Qed.

Lemma trueHeight_eq (n : RopeNode) :
  trueHeight n = Z.max (trueHeightOf (left n)) (trueHeightOf (right n)) + 1.
Proof. destruct n as [l r w v t h]; destruct l, r; reflexivity. Qed.

(** [checkBalance] returns the measured height of a balanced tree and the
    sentinel -1 for any other. *)
Lemma checkBalance_spec (o : option RopeNode) :
  (onSome heightBalanced o /\ Rope.checkBalance o = trueHeightOf o)
  \/ (~ onSome heightBalanced o /\ Rope.checkBalance o = -1).
Proof.
  destruct o as [n |]; [| left; split; [exact I | reflexivity]].
  simpl.
  induction n as [l r w v t h IHl IHr] using RopeNode_induction.
  assert (Hl : (onSome heightBalanced l /\ Rope.checkBalance l = trueHeightOf l)
               \/ (~ onSome heightBalanced l /\ Rope.checkBalance l = -1)).
  { destruct l as [a |]; [exact IHl | left; split; [exact I | reflexivity]]. }
  assert (Hr : (onSome heightBalanced r /\ Rope.checkBalance r = trueHeightOf r)
               \/ (~ onSome heightBalanced r /\ Rope.checkBalance r = -1)).
  { destruct r as [b |]; [exact IHr | left; split; [exact I | reflexivity]]. }
  clear IHl IHr.
  rewrite checkBalance_node_eq, heightBalanced_eq, trueHeight_eq.
  simpl left; simpl right; cbv zeta.
  pose proof (trueHeightOf_nonneg l) as Pl.
  pose proof (trueHeightOf_nonneg r) as Pr.
  destruct Hl as [(Bl & ->) | (Nl & ->)]; [| right; simpl; tauto].
  destruct (Z.eqb_spec (trueHeightOf l) (-1)); [lia |].
  destruct Hr as [(Br & ->) | (Nr & ->)]; [| right; simpl; tauto].
  destruct (Z.eqb_spec (trueHeightOf r) (-1)); [lia |].
  destruct (Z.gtb_spec (Z.abs (trueHeightOf l - trueHeightOf r)) 1).
  - right; split; [| reflexivity]; intros (Habs & _); lia.
  - left; split; [| reflexivity]; split; [lia | split; assumption].
Qed.

Lemma isBalanced_decides_height_balance_aux (r : Rope.t) :
  Rope.isBalanced r = true <-> onSome heightBalanced (Rope.root r).
Proof.
  unfold Rope.isBalanced.
  pose proof (trueHeightOf_nonneg (Rope.root r)) as P.
  destruct (checkBalance_spec (Rope.root r)) as [(B & E) | (N & E)]; rewrite E.
  - destruct (Z.eqb_spec (trueHeightOf (Rope.root r)) (-1)); [lia |].
    simpl; tauto.
  - simpl; split; [discriminate | contradiction].
Qed.

(** On any tree, [isBalanced()] is true exactly when at every node the
    measured heights of the two children differ by at most one: the sentinel
    -1 is never mistaken for a height. *)
Theorem isBalanced_decides_height_balance (r : Rope.t) :
  Rope.isBalanced r = true <-> onSome heightBalanced (Rope.root r).
Proof. apply isBalanced_decides_height_balance_aux. Qed.

Lemma wf_height_true (n : RopeNode) : wf n -> height n = trueHeight n.
Proof.
  induction n as [l r w v t h IHl IHr] using RopeNode_induction.
  destruct t; simpl.
  - intros (-> & -> & _ & ->); reflexivity.
  - destruct l as [a |]; [| contradiction].
    destruct r as [b |]; [| contradiction].
    simpl in IHl, IHr.
    intros (Ha & Hb & _ & ->); rewrite (IHl Ha), (IHr Hb); reflexivity.
Qed.

Lemma wf_balanceFactorsOk (n : RopeNode) :
  wf n -> (balanceFactorsOk n = true <-> heightBalanced n).
Proof.
  induction n as [l r w v t h IHl IHr] using RopeNode_induction.
  destruct t; simpl.
  - intros (-> & -> & _); simpl; intuition lia.
  - destruct l as [a |]; [| contradiction].
    destruct r as [b |]; [| contradiction].
    simpl in IHl, IHr |- *.
    intros (Ha & Hb & _).
    rewrite !andb_true_iff, !Z.leb_le, (IHl Ha), (IHr Hb).
    rewrite (wf_height_true a Ha), (wf_height_true b Hb).
    intuition lia.
Qed.

(** On every rope a client can hold, the cached heights tell the same as
    [isBalanced()]: it is true exactly when every internal node has a cached
    balance factor of -1, 0 or 1. *)
Theorem isBalanced_agrees_with_cached_heights (r : Rope.t) :
  reachable r ->
  Rope.isBalanced r = balanceFactorsOk_of (Rope.root r).
Proof.
  intros Hr; pose proof (reachable_wf r Hr) as Hwf.
  pose proof (isBalanced_decides_height_balance_aux r) as Hb.
  unfold wfRope in Hwf.
  destruct (Rope.root r) as [n |]; simpl in *.
  - pose proof (wf_balanceFactorsOk n Hwf) as Hc.
    destruct (Rope.isBalanced r), (balanceFactorsOk n); intuition congruence.
  - destruct (Rope.isBalanced r); intuition congruence.
Qed.

Lemma isBalanced_agrees_with_cached_heights_witness :
  reachable (fst Samples.eightLeavesInsert)
  /\ Rope.isBalanced (fst Samples.eightLeavesInsert)
     = balanceFactorsOk_of (Rope.root (fst Samples.eightLeavesInsert)).
Proof.
  assert (H : reachable (fst Samples.eightLeavesInsert))
    by (apply reach_insert, reach_new).
  exact (conj H (isBalanced_agrees_with_cached_heights _ H)).
Defined.

(** *** Rotations and the balancing step *)

Lemma updateNodeMetadata_shell_eq (n l r : RopeNode) :
  shell n l r -> Rope.updateNodeMetadata n = internalNode (value n) l r.
Proof.
  destruct n as [nl nr w v t h]; unfold shell; simpl.
  intros (-> & -> & ->); reflexivity.
Qed.

Lemma wf_internal_eq (n : RopeNode) :
  wf n -> type n = INTERNAL ->
  exists l r, n = internalNode (value n) l r /\ wf l /\ wf r.
Proof.
  intros H T; destruct (wf_internal n H T) as (l & r & L & R & Hl & Hr & W & Hh).
  exists l, r; conjs; auto.
  destruct n; simpl in *; subst; reflexivity.
Qed.

Lemma wf_internalNode (v : JS.string) (l r : RopeNode) :
  wf l -> wf r -> wf (internalNode v l r).
Proof. simpl; auto. Qed.

Lemma balanceFactorsOk_internalNode (v : JS.string) (l r : RopeNode) :
  balanceFactorsOk (internalNode v l r) = true
  <-> -1 <= height l - height r <= 1
      /\ balanceFactorsOk l = true /\ balanceFactorsOk r = true.
Proof. simpl; rewrite !andb_true_iff, !Z.leb_le; tauto. Qed.

Lemma rotateRight_eq (v vx : JS.string) (a b c : RopeNode) :
  Rope.rotateRight (internalNode v (internalNode vx a b) c)
  = Ok (internalNode vx a (internalNode v b c)).
Proof. reflexivity. Qed.

Lemma rotateLeft_eq (v vy : JS.string) (a b c : RopeNode) :
  Rope.rotateLeft (internalNode v a (internalNode vy b c))
  = Ok (internalNode vy (internalNode v a b) c).
Proof. reflexivity. Qed.





(** When the operands are balanced and their heights differ by at most two,
    one call of [balance] is enough. *)
Lemma balance_repairs (n l r : RopeNode) :
  shell n l r -> wf l -> wf r ->
  balanceFactorsOk l = true -> balanceFactorsOk r = true ->
  Z.abs (height l - height r) <= 2 ->
  exists z, Rope.balance n = Ok z /\ wf z /\ balanceFactorsOk z = true
            /\ Rope.toString_node z = Rope.toString_node l ++ Rope.toString_node r.
Proof.
  intros Hn Hl Hr Bl Br Hd.
  pose proof (wf_height_pos l Hl) as Pl.
  pose proof (wf_height_pos r Hr) as Pr.
  unfold Rope.balance.
  rewrite (updateNodeMetadata_shell_eq n l r Hn).
  set (v := value n).
  change (Rope.getBalanceFactor (Some (internalNode v l r)))
    with (height l - height r).
  change (left (internalNode v l r)) with (Some l).
  change (right (internalNode v l r)) with (Some r).
  destruct (Z.gtb_spec (height l - height r) 1) as [Hgt | Hle].
  - (* left heavy by two *)
    destruct (wf_internal_eq l Hl (wf_tall l Hl ltac:(lia))) as (a & b & El & Ha & Hb).
    set (vl := value l) in El.
    rewrite El in Bl, Hd, Hgt |- *.
    apply balanceFactorsOk_internalNode in Bl as (Bf & Ba & Bb).
    pose proof (wf_height_pos a Ha) as Pa.
    pose proof (wf_height_pos b Hb) as Pb.
    change (Rope.getBalanceFactor (Some (internalNode vl a b)))
      with (height a - height b).
    change (height (internalNode vl a b))
      with (Z.max (height a) (height b) + 1) in Hd, Hgt.
    destruct (Z.geb_spec (height a - height b) 0) as [Hge | Hlt].
    + rewrite rotateRight_eq.
      eexists; conjs; [reflexivity | auto using wf_internalNode | |].
      * rewrite !balanceFactorsOk_internalNode; simpl height; conjs; auto; lia.
      * simpl; rewrite app_assoc; reflexivity.
    + destruct (wf_internal_eq b Hb (wf_tall b Hb ltac:(lia)))
        as (b1 & b2 & Eb & Hb1 & Hb2).
      set (vb := value b) in Eb.
      rewrite Eb in Bb, Bf, Hd, Hgt, Hlt |- *.
      apply balanceFactorsOk_internalNode in Bb as (Bfb & Bb1 & Bb2).
      change (height (internalNode vb b1 b2))
        with (Z.max (height b1) (height b2) + 1) in Bf, Hd, Hgt, Hlt.
      cbn [Rope.deref bind].
      rewrite rotateLeft_eq; cbn [bind].
      change (set_left (internalNode v (internalNode vl a (internalNode vb b1 b2)) r)
                (Some (internalNode vb (internalNode vl a b1) b2)))
        with (mkRopeNode (Some (internalNode vb (internalNode vl a b1) b2)) (Some r)
                (Rope.getNodeWeight_node (internalNode vl a (internalNode vb b1 b2)))
                v INTERNAL
                (Z.max (height (internalNode vl a (internalNode vb b1 b2))) (height r) + 1)).
      eexists; conjs; [reflexivity | | |].
      * simpl; auto 10.
      * change (balanceFactorsOk
                  (internalNode vb (internalNode vl a b1) (internalNode v b2 r)) = true).
        rewrite !balanceFactorsOk_internalNode; simpl height; conjs; auto; lia.
      * simpl; rewrite <- !app_assoc; reflexivity.
  - destruct (Z.ltb_spec (height l - height r) (-1)) as [Hlt | Hge].
    + (* right heavy by two *)
      destruct (wf_internal_eq r Hr (wf_tall r Hr ltac:(lia))) as (a & b & Er & Ha & Hb).
      set (vr := value r) in Er.
      rewrite Er in Br, Hd, Hlt |- *.
      apply balanceFactorsOk_internalNode in Br as (Bf & Ba & Bb).
      pose proof (wf_height_pos a Ha) as Pa.
      pose proof (wf_height_pos b Hb) as Pb.
      change (Rope.getBalanceFactor (Some (internalNode vr a b)))
        with (height a - height b).
      change (height (internalNode vr a b))
        with (Z.max (height a) (height b) + 1) in Hd, Hlt.
      destruct (Z.leb_spec (height a - height b) 0) as [Hle0 | Hgt0].
      * rewrite rotateLeft_eq.
        eexists; conjs; [reflexivity | auto using wf_internalNode | |].
        -- rewrite !balanceFactorsOk_internalNode; simpl height; conjs; auto; lia.
        -- simpl; rewrite app_assoc; reflexivity.
      * destruct (wf_internal_eq a Ha (wf_tall a Ha ltac:(lia)))
          as (a1 & a2 & Ea & Ha1 & Ha2).
        set (va := value a) in Ea.
        rewrite Ea in Ba, Bf, Hd, Hlt, Hgt0 |- *.
        apply balanceFactorsOk_internalNode in Ba as (Bfa & Ba1 & Ba2).
        change (height (internalNode va a1 a2))
          with (Z.max (height a1) (height a2) + 1) in Bf, Hd, Hlt, Hgt0.
        cbn [Rope.deref bind].
        rewrite rotateRight_eq; cbn [bind].
        change (set_right (internalNode v l (internalNode vr (internalNode va a1 a2) b))
                  (Some (internalNode va a1 (internalNode vr a2 b))))
          with (mkRopeNode (Some l) (Some (internalNode va a1 (internalNode vr a2 b)))
                  (Rope.getNodeWeight_node l) v INTERNAL
                  (Z.max (height l)
                     (height (internalNode vr (internalNode va a1 a2) b)) + 1)).
        eexists; conjs; [reflexivity | | |].
        -- simpl; auto 10.
        -- change (balanceFactorsOk
                     (internalNode va (internalNode v l a1) (internalNode vr a2 b)) = true).
           rewrite !balanceFactorsOk_internalNode; simpl height; conjs; auto; lia.
        -- simpl; rewrite <- !app_assoc; reflexivity.
    + eexists; conjs; [reflexivity | auto using wf_internalNode | |].
      * rewrite balanceFactorsOk_internalNode; conjs; auto; lia.
      * reflexivity.
Qed.

(** [concat] of two balanced trees whose cached heights differ by at most
    two returns a balanced tree over the joined text: within that range the
    single balancing step of [concat] is enough. *)
Theorem concat_keeps_balance (l r : RopeNode) :
  wf l -> wf r ->
  balanceFactorsOk l = true -> balanceFactorsOk r = true ->
  Z.abs (height l - height r) <= 2 ->
  exists z, Rope.concat (Some l) (Some r) = Ok (Some z)
            /\ wf z /\ balanceFactorsOk z = true
            /\ Rope.toString_node z = Rope.toString_node l ++ Rope.toString_node r.
Proof.
  intros Hl Hr Bl Br Hd.
  unfold Rope.concat.
  destruct (isLEAF (type l) && isLEAF (type r)
            && (JS.len (value l) + JS.len (value r)
                <=? Rope.LEAF_LENGTH_THRESHOLD)) eqn:E.
  - apply andb_prop in E as (E & _).
    apply andb_prop in E as (Tl & Tr).
    destruct l as [ll lr lw lv lt lh], r as [rl rr rw rv rt rh].
    simpl in Tl, Tr.
    destruct lt; [| discriminate]; destruct rt; [| discriminate].
    simpl in Hl; destruct Hl as (-> & -> & _ & ->).
    eexists; conjs; [reflexivity | | |]; simpl; auto.
  - set (node := set_right _ _).
    assert (Hs0 : shell node l r) by (unfold shell; simpl; auto).
    destruct (updateNodeMetadata_shell node l r Hs0 Hl Hr) as (_ & Hs & _).
    destruct (balance_repairs _ l r Hs Hl Hr Bl Br Hd) as (z & -> & Hz & Bz & Sz).
    exists z; auto.
Qed.

Lemma concat_keeps_balance_witness :
  wf SampleTrees.tall /\ wf SampleTrees.short
  /\ balanceFactorsOk SampleTrees.tall = true
  /\ balanceFactorsOk SampleTrees.short = true
  /\ Z.abs (height SampleTrees.tall - height SampleTrees.short) <= 2
  /\ exists z, Rope.concat (Some SampleTrees.tall) (Some SampleTrees.short) = Ok (Some z)
               /\ wf z /\ balanceFactorsOk z = true
               /\ Rope.toString_node z
                  = Rope.toString_node SampleTrees.tall
                    ++ Rope.toString_node SampleTrees.short.
Proof.
  assert (H1 : wf SampleTrees.tall) by (vm_compute; repeat split).
  assert (H2 : wf SampleTrees.short) by (vm_compute; repeat split).
  assert (H3 : balanceFactorsOk SampleTrees.tall = true) by reflexivity.
  assert (H4 : balanceFactorsOk SampleTrees.short = true) by reflexivity.
  assert (H5 : Z.abs (height SampleTrees.tall - height SampleTrees.short) <= 2)
    by (vm_compute; discriminate).
  exact (conj H1 (conj H2 (conj H3 (conj H4 (conj H5
           (concat_keeps_balance _ _ H1 H2 H3 H4 H5)))))).
Defined.

(** *** The two primitives *)

(** [concat] of well-formed operands never throws; the result spells the
    text of the left operand followed by that of the right, is well formed,
    is the other operand when one is absent, and is absent only when both
    are. *)
Theorem concat_joins (l r : option RopeNode) :
  onSome wf l -> onSome wf r ->
  exists z, Rope.concat l r = Ok z
            /\ onSome wf z
            /\ Rope.toString_of z = Rope.toString_of l ++ Rope.toString_of r
            /\ (l = None -> z = r) /\ (r = None -> z = l)
            /\ (z = None -> l = None /\ r = None).
Proof.
  intros Hl Hr.
  destruct (concat_ok l r Hl Hr) as (z & E & Hz & Sz & Nz).
  exists z; conjs; auto.
  - intros ->; simpl in E; injection E as <-; reflexivity.
  - intros ->; destruct l; simpl in E; injection E as <-; reflexivity.
Qed.

Lemma concat_joins_witness :
  onSome wf (Some SampleTrees.tall) /\ onSome wf (Some SampleTrees.short)
  /\ exists z, Rope.concat (Some SampleTrees.tall) (Some SampleTrees.short) = Ok z
               /\ onSome wf z
               /\ Rope.toString_of z
                  = Rope.toString_of (Some SampleTrees.tall)
                    ++ Rope.toString_of (Some SampleTrees.short)
               /\ (Some SampleTrees.tall = None -> z = Some SampleTrees.short)
               /\ (Some SampleTrees.short = None -> z = Some SampleTrees.tall)
               /\ (z = None ->
                   Some SampleTrees.tall = None /\ Some SampleTrees.short = None).
Proof.
  assert (H1 : onSome wf (Some SampleTrees.tall)) by (vm_compute; repeat split).
  assert (H2 : onSome wf (Some SampleTrees.short)) by (vm_compute; repeat split).
  exact (conj H1 (conj H2 (concat_joins _ _ H1 H2))).
Defined.

(** [split] of a well-formed tree at an index within its text never throws;
    the left part spells the text before the index and the right part the
    text from the index on, both parts are well formed, the left part is
    absent only for index 0 and the right part only for the full length. *)
Theorem split_partitions (n : RopeNode) (index : Z) :
  wf n -> 0 <= index <= JS.len (Rope.toString_node n) ->
  exists l r,
    Rope.split n index = Ok (l, r)
    /\ onSome wf l /\ onSome wf r
    /\ Rope.toString_of l = JS.slice (Rope.toString_node n) 0 index
    /\ Rope.toString_of r
       = JS.slice (Rope.toString_node n) index (JS.len (Rope.toString_node n))
    /\ (l = None -> index = 0)
    /\ (r = None -> index = JS.len (Rope.toString_node n)).
Proof.
  intros Hwf Hi.
  destruct (split_ok n Hwf index Hi) as (l & r & E & Hl & Hr & Sl & Sr & Nr).
  exists l, r; rewrite slice_prefix, slice_suffix by lia; conjs; auto.
  intros ->; simpl in Sl.
  assert (L : JS.len (take index (Rope.toString_node n)) = 0) by (rewrite <- Sl; reflexivity).
  rewrite len_take in L by lia; exact L.
Qed.

Lemma split_partitions_witness :
  wf SampleTrees.leftLeaning
  /\ 0 <= 2 <= JS.len (Rope.toString_node SampleTrees.leftLeaning)
  /\ exists l r,
       Rope.split SampleTrees.leftLeaning 2 = Ok (l, r)
       /\ onSome wf l /\ onSome wf r
       /\ Rope.toString_of l = JS.slice (Rope.toString_node SampleTrees.leftLeaning) 0 2
       /\ Rope.toString_of r
          = JS.slice (Rope.toString_node SampleTrees.leftLeaning) 2
              (JS.len (Rope.toString_node SampleTrees.leftLeaning))
       /\ (l = None -> 2 = 0)
       /\ (r = None -> 2 = JS.len (Rope.toString_node SampleTrees.leftLeaning)).
Proof.
  assert (H1 : wf SampleTrees.leftLeaning) by (vm_compute; repeat split).
  assert (H2 : 0 <= 2 <= JS.len (Rope.toString_node SampleTrees.leftLeaning))
    by (vm_compute; intuition discriminate).
  exact (conj H1 (conj H2 (split_partitions _ 2 H1 H2))).
Defined.

(** *** Shape of a built tree *)

Lemma leafValues_updateNodeMetadata (n : RopeNode) :
  leafValues (Rope.updateNodeMetadata n) = leafValues n.
Proof. destruct n as [l r w v t h]; destruct t; reflexivity. Qed.

Lemma createOptimalTree_fuel_leaves (fuel : nat) :
  forall (str : JS.string) (s e : Z),
    0 <= s <= e -> e <= JS.len str -> e - s <= Z.of_nat fuel ->
    Forall (fun v => JS.len v <= Rope.LEAF_LENGTH_THRESHOLD
                     /\ (Rope.LEAF_LENGTH_THRESHOLD <= 2 * (e - s) ->
                         Rope.LEAF_LENGTH_THRESHOLD <= 2 * JS.len v))
      (leafValues (Rope.createOptimalTree_fuel fuel str s e)).
Proof.
  induction fuel as [| fuel IH]; intros str s e Hs He Hf.
  - rewrite createOptimalTree_fuel_leaf by (unfold Rope.LEAF_LENGTH_THRESHOLD; lia).
    simpl; constructor; [| constructor].
    rewrite substring_valid, len_take by (rewrite ?len_drop; lia).
    unfold Rope.LEAF_LENGTH_THRESHOLD; lia.
  - destruct (Z_le_gt_dec (e - s) Rope.LEAF_LENGTH_THRESHOLD) as [Hle | Hgt].
    + rewrite createOptimalTree_fuel_leaf by assumption.
      simpl; constructor; [| constructor].
      rewrite substring_valid, len_take by (rewrite ?len_drop; lia).
      lia.
    + rewrite createOptimalTree_fuel_node by lia.
      rewrite leafValues_updateNodeMetadata.
      unfold Rope.LEAF_LENGTH_THRESHOLD in *.
      simpl leafValues.
      apply Forall_app; split.
      * eapply Forall_impl; cycle 1.
        { apply (IH str s ((s + e) / 2)); dlia. }
        cbv beta; intros v (Hv1 & Hv2); split; [exact Hv1 |].
        intros _; apply Hv2; dlia.
      * eapply Forall_impl; cycle 1.
        { apply (IH str ((s + e) / 2) e); dlia. }
        cbv beta; intros v (Hv1 & Hv2); split; [exact Hv1 |].
        intros _; apply Hv2; dlia.
Qed.

(** The tree builder cuts the text into leaves of at most
    [LEAF_LENGTH_THRESHOLD] code units, and of at least half of that when the
    text itself is that long.  This holds for the constructor and for
    [rebalance()]. *)
Theorem built_leaves_sized (s : JS.string) (r : Rope.t) :
  onSome (fun n =>
            Forall (fun v => JS.len v <= Rope.LEAF_LENGTH_THRESHOLD
                             /\ (Rope.LEAF_LENGTH_THRESHOLD <= 2 * JS.len s ->
                                 Rope.LEAF_LENGTH_THRESHOLD <= 2 * JS.len v))
              (leafValues n))
    (Rope.root (Rope.new s))
  /\ onSome (fun n =>
               Forall (fun v => JS.len v <= Rope.LEAF_LENGTH_THRESHOLD
                                /\ (Rope.LEAF_LENGTH_THRESHOLD
                                    <= 2 * JS.len (Rope.toString r) ->
                                    Rope.LEAF_LENGTH_THRESHOLD <= 2 * JS.len v))
                 (leafValues n))
       (Rope.root (fst (Rope.rebalance r))).
Proof.
  assert (G : forall str,
             Forall (fun v => JS.len v <= Rope.LEAF_LENGTH_THRESHOLD
                              /\ (Rope.LEAF_LENGTH_THRESHOLD <= 2 * JS.len str ->
                                  Rope.LEAF_LENGTH_THRESHOLD <= 2 * JS.len v))
               (leafValues (Rope.createOptimalTree str 0 (JS.len str)))).
  { intros str; pose proof (len_nonneg str).
    unfold Rope.createOptimalTree.
    eapply Forall_impl; cycle 1.
    { apply (createOptimalTree_fuel_leaves (Z.to_nat (JS.len str - 0)) str 0 (JS.len str));
        lia. }
    cbv beta; intros v (Hv1 & Hv2); split; [exact Hv1 |].
    intros Hlen; apply Hv2; lia. }
  split.
  - unfold Rope.new; destruct s as [| c s]; [exact I |].
    exact (G (c :: s)).
  - exact (G (Rope.toString r)).
Qed.

Lemma height_createOptimalTree_fuel (fuel : nat) :
  forall (str : JS.string) (s e : Z),
    height (Rope.createOptimalTree_fuel fuel str s e) = shapeHeight fuel (e - s).
Proof.
  induction fuel as [| fuel IH]; intros str s e.
  - simpl; destruct (e - s <=? Rope.LEAF_LENGTH_THRESHOLD); reflexivity.
  - destruct (Z_le_gt_dec (e - s) Rope.LEAF_LENGTH_THRESHOLD) as [Hle | Hgt].
    + rewrite createOptimalTree_fuel_leaf by assumption.
      simpl; destruct (Z.leb_spec (e - s) Rope.LEAF_LENGTH_THRESHOLD); [reflexivity | lia].
    + rewrite createOptimalTree_fuel_node by lia.
      simpl height; rewrite !IH.
      replace ((s + e) / 2 - s) with ((e - s) / 2) by dlia.
      replace (e - (s + e) / 2) with (e - s - (e - s) / 2) by dlia.
      simpl shapeHeight.
      destruct (Z.leb_spec (e - s) Rope.LEAF_LENGTH_THRESHOLD); [lia | reflexivity].
Qed.

Lemma shapeHeight_bounds (fuel : nat) :
  forall n, n <= Z.of_nat fuel ->
    (n <= Rope.LEAF_LENGTH_THRESHOLD -> shapeHeight fuel n = 1)
    /\ (Rope.LEAF_LENGTH_THRESHOLD < n ->
        2 <= shapeHeight fuel n
        /\ Rope.LEAF_LENGTH_THRESHOLD * 2 ^ (shapeHeight fuel n - 2) < n
        /\ n <= Rope.LEAF_LENGTH_THRESHOLD * 2 ^ (shapeHeight fuel n - 1)).
Proof.
  induction fuel as [| fuel IH]; intros n Hn.
  - unfold Rope.LEAF_LENGTH_THRESHOLD; split; [| lia].
    intros H; simpl; unfold Rope.LEAF_LENGTH_THRESHOLD.
    destruct (Z.leb_spec n 1024); [reflexivity | lia].
  - split.
    + intros H; simpl; destruct (Z.leb_spec n Rope.LEAF_LENGTH_THRESHOLD); [reflexivity | lia].
    + intros H; simpl shapeHeight.
      destruct (Z.leb_spec n Rope.LEAF_LENGTH_THRESHOLD); [lia |].
      assert (Hmax : Z.max (shapeHeight fuel (n / 2)) (shapeHeight fuel (n - n / 2))
                     = shapeHeight fuel (n - n / 2)).
      { assert (n - n / 2 = n / 2 \/ n - n / 2 = n / 2 + 1) as [-> | ->] by dlia.
        - lia.
        - pose proof (shapeHeight_step fuel (n / 2)); lia. }
      rewrite Hmax.
      unfold Rope.LEAF_LENGTH_THRESHOLD in *.
      destruct (IH (n - n / 2) ltac:(dlia)) as (Hsmall & Hbig).
      set (k := shapeHeight fuel (n - n / 2)) in *.
      destruct (Z_le_gt_dec (n - n / 2) 1024) as [Hle | Hgt].
      * rewrite (Hsmall Hle).
        change (2 ^ (1 + 1 - 2)) with 1; change (2 ^ (1 + 1 - 1)) with 2.
        dlia.
      * destruct (Hbig ltac:(lia)) as (Hk & Hlo & Hhi).
        replace (k + 1 - 2) with (Z.succ (k - 2)) by lia.
        replace (k + 1 - 1) with (Z.succ (Z.succ (k - 2))) by lia.
        replace (k - 1) with (Z.succ (k - 2)) in Hhi by lia.
        rewrite !Z.pow_succ_r in * by lia.
        set (p := 2 ^ (k - 2)) in *.
        dlia.
Qed.

(** The tree the constructor builds for a text of [n > 1024] code units has
    the least height [h] that leaves of 1024 code units allow:
    [1024 * 2^(h-2) < n <= 1024 * 2^(h-1)]. *)
Theorem built_height_logarithmic (s : JS.string) :
  Rope.LEAF_LENGTH_THRESHOLD < JS.len s ->
  Rope.LEAF_LENGTH_THRESHOLD * 2 ^ (heightOf (Rope.root (Rope.new s)) - 2) < JS.len s
  /\ JS.len s
     <= Rope.LEAF_LENGTH_THRESHOLD * 2 ^ (heightOf (Rope.root (Rope.new s)) - 1).
Proof.
  intros Hlen.
  assert (E : heightOf (Rope.root (Rope.new s))
              = shapeHeight (Z.to_nat (JS.len s - 0)) (JS.len s - 0)).
  { unfold Rope.new; destruct s as [| c s];
      [unfold Rope.LEAF_LENGTH_THRESHOLD, JS.len in Hlen; simpl in Hlen; lia |].
    simpl; apply height_createOptimalTree_fuel. }
  rewrite E.
  destruct (shapeHeight_bounds (Z.to_nat (JS.len s - 0)) (JS.len s - 0) ltac:(lia))
    as (_ & Hbig).
  rewrite Z.sub_0_r in *.
  destruct (Hbig Hlen) as (_ & Hlo & Hhi); auto.
Qed.

Lemma built_height_logarithmic_witness :
  Rope.LEAF_LENGTH_THRESHOLD < JS.len (repeat "a"%char (Z.to_nat 8192))
  /\ Rope.LEAF_LENGTH_THRESHOLD
     * 2 ^ (heightOf (Rope.root (Rope.new (repeat "a"%char (Z.to_nat 8192)))) - 2)
     < JS.len (repeat "a"%char (Z.to_nat 8192))
  /\ JS.len (repeat "a"%char (Z.to_nat 8192))
     <= Rope.LEAF_LENGTH_THRESHOLD
        * 2 ^ (heightOf (Rope.root (Rope.new (repeat "a"%char (Z.to_nat 8192)))) - 1).
Proof.
  assert (H : Rope.LEAF_LENGTH_THRESHOLD < JS.len (repeat "a"%char (Z.to_nat 8192)))
    by (vm_compute; reflexivity).
  exact (conj H (built_height_logarithmic _ H)).
Defined.

(** *** Reading back what was written *)

Lemma charAt_reads (r : Rope.t) (i : Z) :
  wfRope r -> 0 <= i < Rope.length r ->
  exists c, JS.index (Rope.toString r) i = Some c /\ Rope.charAt r i = (r, Ok c).
Proof.
  intros Hwf Hi; unfold Rope.charAt.
  destruct (Z.ltb_spec i 0); [lia |].
  destruct (Z.geb_spec i (Rope.length r)); [lia |].
  rewrite length_toString in Hi.
  destruct r as [[root |]]; unfold wfRope, Rope.toString in *; simpl in *;
    [| unfold JS.len in Hi; simpl in Hi; lia].
  destruct (charAt_walk_ok root Hwf i Hi) as (c & E & ->).
  exists c; auto.
Qed.

(** After a valid [insert(i, text)], the inserted text can be read back:
    [substring(i, i + text.length)] returns [text], and [charAt(i + j)]
    returns [text[j]] for every [j] within the text. *)
Theorem inserted_text_reads_back (r : Rope.t) (i : Z) (text : JS.string) :
  reachable r -> 0 <= i <= Rope.length r ->
  snd (Rope.substring (fst (Rope.insert r i text)) i (i + JS.len text)) = Ok text
  /\ forall j, 0 <= j < JS.len text ->
       exists c, JS.index text j = Some c
                 /\ snd (Rope.charAt (fst (Rope.insert r i text)) (i + j)) = Ok c.
Proof.
  intros Hr Hi; pose proof (reachable_wf r Hr) as Hwf.
  destruct (insert_ok r i text Hwf Hi) as (r1 & -> & Hwf1 & S1).
  simpl fst.
  rewrite length_toString in Hi.
  pose proof (len_nonneg text) as Ht.
  assert (L1 : Rope.length r1 = JS.len (Rope.toString r) + JS.len text).
  { rewrite length_toString, S1, !len_app, len_take, len_drop by lia; lia. }
  split.
  - destruct (substring_ok r1 i (i + JS.len text) Hwf1 ltac:(lia) ltac:(lia))
      as (r2 & -> & _).
    simpl; f_equal.
    rewrite S1.
    rewrite drop_app_r by (rewrite len_take; lia).
    rewrite len_take, Z.sub_diag, drop_0 by lia.
    replace (i + JS.len text - i) with (JS.len text) by lia.
    rewrite take_app_l by lia.
    apply take_all; lia.
  - intros j Hj.
    destruct (charAt_reads r1 (i + j) Hwf1 ltac:(lia)) as (c & E & ->).
    exists c; split; [| reflexivity].
    rewrite S1 in E.
    rewrite index_app_r in E by (rewrite len_take; lia).
    rewrite len_take in E by lia.
    replace (i + j - i) with j in E by lia.
    rewrite index_app_l in E by lia.
    exact E.
Qed.

Lemma inserted_text_reads_back_witness :
  reachable Samples.hello /\ 0 <= 5 <= Rope.length Samples.hello
  /\ snd (Rope.substring (fst (Rope.insert Samples.hello 5 (Samples.text " beautiful")))
            5 (5 + JS.len (Samples.text " beautiful")))
     = Ok (Samples.text " beautiful")
  /\ forall j, 0 <= j < JS.len (Samples.text " beautiful") ->
       exists c, JS.index (Samples.text " beautiful") j = Some c
                 /\ snd (Rope.charAt
                           (fst (Rope.insert Samples.hello 5 (Samples.text " beautiful")))
                           (5 + j)) = Ok c.
Proof.
  assert (H1 : reachable Samples.hello) by apply reach_new.
  assert (H2 : 0 <= 5 <= Rope.length Samples.hello)
    by (vm_compute; intuition discriminate).
  exact (conj H1 (conj H2 (inserted_text_reads_back Samples.hello 5 _ H1 H2))).
Defined.

End MoreProperties.
